(** * Sliding-window rate limiter ([sampler/rate_limiter.py])

    A shallow embedding of the [RateLimiter] class and the verification of
    its specification.

    Modelling conventions.
    - Python [float] timestamps and durations are idealised as exact
      rationals ([Q]); the literal [0.1] is [1 # 10].  Rounding is out of
      scope.  Equality of durations is therefore stated with [==].
    - Python [int] token counts and limits are [Z]; an [Optional[int]] is an
      [option Z].
    - A [deque] is a [list]: [popleft] removes the head, [append] adds at the
      tail, [dq[0]] reads the head and raises [IndexError] when empty.
    - The methods run in a small state-and-exception monad [Py] over a
      [Machine]: the limiter object, the clock read by [time.time()], and the
      trace of the effects performed ([time.sleep], [print]).
    - Time: a method takes no time of its own; [time.sleep(d)] advances the
      clock by [d]; the time that goes by between two calls is an [Elapse]
      step of a history.
    - [with self.lock] serialises the methods; the model is sequential, so
      the lock is not represented. *)

From Stdlib Require Import ZArith QArith Qminmax List Sorted Bool Lia Lqa.
Import ListNotations.

Local Open Scope Q_scope.

(** ** Data model *)

(** The fields set by [__init__] (the lock apart). *)
Record RateLimiter : Type := mkRateLimiter {
  rpm_limit : option Z;
  tpm_limit : option Z;
  window_seconds : Q;
  request_times : list Q;
  token_usage : list (Q * Z)
}.

(** What a method can do to the outside world. *)
Inductive effect : Type :=
| Sleep (seconds : Q)
| PrintRpmWait (wait_time : Q)
| PrintTpmWait (current_tpm limit : Z) (wait_time : Q).

Record Machine : Type := mkMachine {
  self : RateLimiter;
  clock : Q;
  effects : list effect
}.

Inductive exn : Type := IndexError | ZeroDivisionError | ValueError.

Inductive outcome (A : Type) : Type :=
| Returned (a : A)
| Raised (e : exn).
Arguments Returned {A} a.
Arguments Raised {A} e.

(** ** The [Py] monad: state passing with exceptions.  A raised exception
    keeps the mutations done before it. *)
Definition Py (A : Type) : Type := Machine -> outcome A * Machine.

Definition ret {A} (a : A) : Py A := fun m => (Returned a, m).

Definition bind {A B} (c : Py A) (k : A -> Py B) : Py B :=
  fun m =>
    match c m with
    | (Returned a, m') => k a m'
    | (Raised e, m') => (Raised e, m')
    end.

Definition raise {A} (e : exn) : Py A := fun m => (Raised e, m).

Declare Scope py_scope.
Delimit Scope py_scope with py.
Notation "'let*' x ':=' c 'in' k" := (bind c (fun x => k))
  (at level 10, x pattern, c at level 100, k at level 200) : py_scope.
Notation "c ';;' k" := (bind c (fun _ => k))
  (at level 100, k at level 200, right associativity) : py_scope.
Local Open Scope py_scope.

Definition get_self : Py RateLimiter := fun m => (Returned (self m), m).

Definition with_request_times (s : RateLimiter) (dq : list Q) : RateLimiter :=
  mkRateLimiter (rpm_limit s) (tpm_limit s) (window_seconds s)
                dq (token_usage s).

Definition with_token_usage (s : RateLimiter) (dq : list (Q * Z))
  : RateLimiter :=
  mkRateLimiter (rpm_limit s) (tpm_limit s) (window_seconds s)
                (request_times s) dq.

Definition set_request_times (dq : list Q) : Py unit :=
  fun m =>
    (Returned tt,
     mkMachine (with_request_times (self m) dq) (clock m) (effects m)).

Definition set_token_usage (dq : list (Q * Z)) : Py unit :=
  fun m =>
    (Returned tt,
     mkMachine (with_token_usage (self m) dq) (clock m) (effects m)).

Definition perform (e : effect) : Py unit :=
  fun m => (Returned tt, mkMachine (self m) (clock m) (effects m ++ [e])).

(** ** Primitives of the Python runtime *)

Definition Qltb (x y : Q) : bool :=
  match x ?= y with Lt => true | _ => false end.

(** [time.time()] *)
Definition time_time : Py Q := fun m => (Returned (clock m), m).

(** [time.sleep(seconds)]: refuses a negative duration, otherwise the clock
    has advanced by [seconds] when it returns. *)
Definition time_sleep (seconds : Q) : Py unit :=
  if Qltb seconds 0 then raise ValueError
  else fun m =>
         (Returned tt,
          mkMachine (self m) (clock m + seconds) (effects m ++ [Sleep seconds])).

(** [dq[0]] *)
Definition index0 {A} (dq : list A) : Py A :=
  match dq with
  | [] => raise IndexError
  | x :: _ => ret x
  end.

(** [max(a, b)] keeps its first argument unless the second is greater. *)
Definition py_max (a b : Q) : Q := if Qltb a b then b else a.

(** [a / b] on two [int]s. *)
Definition truediv (a b : Z) : Py Q :=
  if (b =? 0)%Z then raise ZeroDivisionError
  else ret (inject_Z a / inject_Z b).

(** [limit and test(limit)]: [None] and [0] are falsy. *)
Definition and_limit (limit : option Z) (test : Z -> bool) : bool :=
  match limit with
  | Some n => negb (n =? 0)%Z && test n
  | None => false
  end.

(** [sum(tokens for _, tokens in dq)] *)
Definition sum_tokens (dq : list (Q * Z)) : Z :=
  fold_left (fun acc e => (acc + snd e)%Z) dq 0%Z.

(** ** The methods *)

(** [while dq and stale(dq[0]): dq.popleft()] *)
Fixpoint popleft_while {A} (stale : A -> bool) (dq : list A) : list A :=
  match dq with
  | [] => []
  | x :: rest => if stale x then popleft_while stale rest else dq
  end.

Definition _clean_old_entries (current_time : Q) : Py unit :=
  let* s := get_self in
  let cutoff_time := current_time - window_seconds s in
  set_request_times
    (popleft_while (fun t => Qltb t cutoff_time) (request_times s)) ;;
  let* s := get_self in
  set_token_usage
    (popleft_while (fun e => Qltb (fst e) cutoff_time) (token_usage s)).

Definition _get_current_usage (current_time : Q) : Py (Z * Z) :=
  _clean_old_entries current_time ;;
  let* s := get_self in
  let current_rpm := Z.of_nat (length (request_times s)) in
  let current_tpm := sum_tokens (token_usage s) in
  ret (current_rpm, current_tpm).

(** The [for timestamp, tokens in self.token_usage] loop shared by
    [_calculate_wait_time] and [report_actual_usage]: the timestamp at which
    the [break] is taken, [None] when the loop runs to the end. *)
Fixpoint freed_at (tokens_needed tokens_freed : Z) (dq : list (Q * Z))
  : option Q :=
  match dq with
  | [] => None
  | (timestamp, tokens) :: rest =>
      let tokens_freed := (tokens_freed + tokens)%Z in
      if (tokens_freed >=? tokens_needed)%Z then Some timestamp
      else freed_at tokens_needed tokens_freed rest
  end.

Definition _calculate_wait_time (estimated_tokens : Z) : Py Q :=
  let* current_time := time_time in
  let* usage := _get_current_usage current_time in
  let '(current_rpm, current_tpm) := usage in
  let* s := get_self in
  let wait_time := 0 in
  let* wait_time :=
    if and_limit (rpm_limit s) (fun limit => (current_rpm >=? limit)%Z) then
      let* oldest_request_time := index0 (request_times s) in
      let wait_for_rpm :=
        oldest_request_time + window_seconds s - current_time in
      ret (py_max wait_time wait_for_rpm)
    else ret wait_time in
  let* wait_time :=
    match tpm_limit s with
    | Some limit =>
        if negb (limit =? 0)%Z && (current_tpm + estimated_tokens >? limit)%Z
        then
          let tokens_needed := (current_tpm + estimated_tokens - limit)%Z in
          match freed_at tokens_needed 0 (token_usage s) with
          | Some timestamp =>
              let wait_for_tpm :=
                timestamp + window_seconds s - current_time in
              ret (py_max wait_time wait_for_tpm)
          | None => ret wait_time
          end
        else ret wait_time
    | None => ret wait_time
    end in
  ret (if Qltb 0 wait_time then wait_time + (1 # 10) else wait_time).

Definition acquire : Py unit :=
  let* current_time := time_time in
  _clean_old_entries current_time ;;
  let* s := get_self in
  let current_rpm := Z.of_nat (length (request_times s)) in
  let* wait_time :=
    if and_limit (rpm_limit s) (fun limit => (current_rpm >=? limit)%Z) then
      let* oldest_request_time := index0 (request_times s) in
      ret (oldest_request_time + window_seconds s - current_time + (1 # 10))
    else ret 0 in
  (if Qltb 0 wait_time
   then perform (PrintRpmWait wait_time) ;; time_sleep wait_time
   else ret tt) ;;
  let* current_time := time_time in
  let* s := get_self in
  set_request_times (request_times s ++ [current_time]).

Definition report_actual_usage (actual_tokens : Z) : Py unit :=
  let* current_time := time_time in
  _clean_old_entries current_time ;;
  let* s := get_self in
  set_token_usage (token_usage s ++ [(current_time, actual_tokens)]) ;;
  let* s := get_self in
  match tpm_limit s with
  | Some limit =>
      if negb (limit =? 0)%Z then
        let current_tpm := sum_tokens (token_usage s) in
        if (current_tpm >? limit)%Z then
          let tokens_to_free := (current_tpm - limit)%Z in
          match freed_at tokens_to_free 0 (token_usage s) with
          | Some timestamp =>
              let wait_time :=
                timestamp + window_seconds s - current_time + (1 # 10) in
              if Qltb 0 wait_time
              then perform (PrintTpmWait current_tpm limit wait_time) ;;
                   time_sleep wait_time
              else ret tt
          | None => ret tt
          end
        else ret tt
      else ret tt
  | None => ret tt
  end.

(** The dictionary returned by [get_current_stats]. *)
Record Stats : Type := mkStats {
  stat_current_rpm : Z;
  stat_rpm_limit : option Z;
  stat_current_tpm : Z;
  stat_tpm_limit : option Z;
  rpm_utilization : Q;
  tpm_utilization : Q
}.

(** [(count / limit * 100) if limit else 0] *)
Definition utilization (count : Z) (limit : option Z) : Py Q :=
  match limit with
  | Some n =>
      if negb (n =? 0)%Z then
        let* ratio := truediv count n in ret (ratio * 100)
      else ret 0
  | None => ret 0
  end.

Definition get_current_stats : Py Stats :=
  let* current_time := time_time in
  let* usage := _get_current_usage current_time in
  let '(current_rpm, current_tpm) := usage in
  let* s := get_self in
  let* rpm_u := utilization current_rpm (rpm_limit s) in
  let* tpm_u := utilization current_tpm (tpm_limit s) in
  ret (mkStats current_rpm (rpm_limit s) current_tpm (tpm_limit s)
               rpm_u tpm_u).

(** [RateLimiter(rpm_limit, tpm_limit, window_seconds)] at clock [t0]. *)
Definition __init__ (rpm tpm : option Z) (window : Q) (t0 : Q) : Machine :=
  mkMachine (mkRateLimiter rpm tpm window [] []) t0 [].

(** ** Histories: calls on the limiter separated by the passing of time *)

Inductive call : Type :=
| Acquire
| ReportActualUsage (actual_tokens : Z)
| GetCurrentStats
| CalculateWaitTime (estimated_tokens : Z).

Inductive reply : Type :=
| RNone
| RStats (stats : Stats)
| RWait (wait_time : Q).

Definition invoke (c : call) : Py reply :=
  match c with
  | Acquire => acquire ;; ret RNone
  | ReportActualUsage n => report_actual_usage n ;; ret RNone
  | GetCurrentStats => let* d := get_current_stats in ret (RStats d)
  | CalculateWaitTime n => let* w := _calculate_wait_time n in ret (RWait w)
  end.

Inductive step : Type :=
| Elapse (seconds : Q)
| Call (c : call).

(** The clock never runs backwards. *)
Definition step_ok (st : step) : Prop :=
  match st with
  | Elapse d => 0 <= d
  | Call _ => True
  end.

Definition exec (st : step) (m : Machine) : outcome reply * Machine :=
  match st with
  | Elapse d => (Returned RNone, mkMachine (self m) (clock m + d) (effects m))
  | Call c => invoke c m
  end.

Fixpoint run (sts : list step) (m : Machine)
  : list (outcome reply) * Machine :=
  match sts with
  | [] => ([], m)
  | st :: rest =>
      let (r, m') := exec st m in
      let (rs, m'') := run rest m' in
      (r :: rs, m'')
  end.

Inductive reachable : Machine -> Prop :=
| reach_init rpm tpm window t0 :
    reachable (__init__ rpm tpm window t0)
| reach_step m st :
    reachable m -> step_ok st -> reachable (snd (exec st m)).

(** ** Derived notions used in the statements *)

(** The limiter left by [_clean_old_entries current_time]. *)
Definition trimmed (current_time : Q) (s : RateLimiter) : RateLimiter :=
  self (snd (_clean_old_entries current_time (mkMachine s 0 []))).
Arguments trimmed : simpl never.

(** Tokens held by the first [k + 1] entries of a token log. *)
Definition prefix_tokens (dq : list (Q * Z)) (k : nat) : Z :=
  sum_tokens (firstn (S k) dq).

(** Entry [k] is the first one at which the tokens accumulated from the
    head reach [needed]. *)
Definition first_reaching (dq : list (Q * Z)) (needed : Z) (k : nat) : Prop :=
  (needed <= prefix_tokens dq k)%Z /\
  forall j, (j < k)%nat -> (prefix_tokens dq j < needed)%Z.

(** A limit as the constructor documents it: absent, or a positive integer. *)
Definition limit_ok (limit : option Z) : Prop :=
  match limit with
  | Some n => (0 < n)%Z
  | None => True
  end.

(** A log is in time order and holds nothing from the future. *)
Definition timeline (ts : list Q) (now : Q) : Prop :=
  StronglySorted Qle ts /\ Forall (fun t => t <= now) ts.

Definition chronological (m : Machine) : Prop :=
  timeline (request_times (self m)) (clock m) /\
  timeline (map fst (token_usage (self m))) (clock m).

(** The wait that [acquire] computes from the trimmed limiter [s]. *)
Definition acquire_wait (s : RateLimiter) (now : Q) : outcome Q :=
  if and_limit (rpm_limit s)
       (fun limit => (Z.of_nat (length (request_times s)) >=? limit)%Z)
  then match request_times s with
       | [] => Raised IndexError
       | oldest :: _ => Returned (oldest + window_seconds s - now + (1 # 10))
       end
  else Returned 0.

(** The wait that [report_actual_usage] takes once the usage is logged in
    [s]: the token sum, the limit and the duration, when it sleeps. *)
Definition report_wait (s : RateLimiter) (now : Q) : option (Z * Z * Q) :=
  match tpm_limit s with
  | Some limit =>
      let current_tpm := sum_tokens (token_usage s) in
      if negb (limit =? 0)%Z && (current_tpm >? limit)%Z then
        match freed_at (current_tpm - limit) 0 (token_usage s) with
        | Some timestamp =>
            let wait_time := timestamp + window_seconds s - now + (1 # 10) in
            if Qltb 0 wait_time then Some (current_tpm, limit, wait_time)
            else None
        | None => None
        end
      else None
  | None => None
  end.

(** ** Concrete machines used as examples *)

(** Requests logged at 0, 10, 40 and (out of order) 5, tokens at 0 and 40,
    under a 60-second window, observed at time 100: the cutoff is 40. *)
Definition cutoff_machine : Machine :=
  mkMachine
    (mkRateLimiter (Some 2%Z) (Some 100%Z) 60
                   [0; 10; 40; 5] [(0, 7%Z); (40, 9%Z)])
    100 [].

(** One request at time 0, then a full 60-second window goes by. *)
Definition boundary_machine : Machine :=
  snd (run [Call Acquire; Elapse 60] (__init__ None None 60 0)).

(** [after] is [before] with entries removed at the head and entries
    stamped between [lo] and [hi] appended at the tail. *)
Definition head_tail_update {A} (stamp : A -> Q) (lo hi : Q)
           (before after : list A) : Prop :=
  exists gone kept added,
    before = gone ++ kept /\
    after = kept ++ added /\
    Forall (fun x => lo <= stamp x <= hi) added.

(** Three requests at the limit of two, then two reports of 60 tokens half
    a second apart under a limit of 100 (one-second window). *)
Definition busy_machine : Machine :=
  snd (run [Call Acquire; Call Acquire; Call Acquire;
            Call (ReportActualUsage 60); Elapse (1 # 2);
            Call (ReportActualUsage 60)]
           (__init__ (Some 2%Z) (Some 100%Z) 1 0)).

(** ** The operations as the specification words them

    These definitions follow the specification's prose, not the code; the
    theorems below compare them with the methods. *)

(** "If [rpmLimit] is set and [requestCount >= rpmLimit]: ... the candidate
    wait is [oldestRequestTimestamp + windowSeconds - now]." *)
Definition spec_rpm_candidate (s : RateLimiter) (now : Q) : option Q :=
  match rpm_limit s, request_times s with
  | Some limit, oldest :: _ =>
      if (limit <=? Z.of_nat (length (request_times s)))%Z
      then Some (oldest + window_seconds s - now)
      else None
  | _, _ => None
  end.

(** "walk the token log from its head, accumulating freed tokens until the
    running total reaches [deficit]": the first index whose prefix holds at
    least [deficit] tokens. *)
Definition spec_first_reaching (dq : list (Q * Z)) (deficit : Z)
  : option nat :=
  find (fun k => (deficit <=? prefix_tokens dq k)%Z) (seq 0 (length dq)).

(** "If [tpmLimit] is set and [tokenSum + estimatedTokens > tpmLimit]: ...
    the candidate wait is that entry's [timestamp + windowSeconds - now]." *)
Definition spec_tpm_candidate (s : RateLimiter) (now : Q) (estimated : Z)
  : option Q :=
  match tpm_limit s with
  | Some limit =>
      let total := (sum_tokens (token_usage s) + estimated)%Z in
      if (limit <? total)%Z then
        match spec_first_reaching (token_usage s) (total - limit) with
        | Some k =>
            option_map (fun e => fst e + window_seconds s - now)
                       (nth_error (token_usage s) k)
        | None => None
        end
      else None
  | None => None
  end.

(** "The maximum of the two candidate waits, floored at 0." *)
Definition spec_longest_wait (candidates : list (option Q)) : Q :=
  fold_right (fun c longest =>
                match c with
                | Some w => Qmax w longest
                | None => longest
                end) 0 candidates.

(** "... plus a fixed safety buffer of 0.1 seconds whenever the result is
    positive." *)
Definition spec_computeWaitTime (s : RateLimiter) (now : Q) (estimated : Z)
  : Q :=
  let longest :=
    spec_longest_wait [spec_rpm_candidate s now;
                       spec_tpm_candidate s now estimated] in
  if Qlt_le_dec 0 longest then longest + (1 # 10) else longest.

(** The wait of [acquire]: the RPM candidate with the buffer already in it,
    nothing when the limit is not reached. *)
Definition spec_acquire_wait (s : RateLimiter) (now : Q) : Q :=
  match spec_rpm_candidate s now with
  | Some w => w + (1 # 10)
  | None => 0
  end.

(** The same machine with another token limit and another token log. *)
Definition with_token_side (tpm : option Z) (dq : list (Q * Z))
           (m : Machine) : Machine :=
  mkMachine
    (mkRateLimiter (rpm_limit (self m)) tpm (window_seconds (self m))
                   (request_times (self m)) dq)
    (clock m) (effects m).

(** A request and a report of 5 tokens at time 0, observed 61 seconds
    later under a 60-second window. *)
Definition expired_machine : Machine :=
  snd (run [Call Acquire; Call (ReportActualUsage 5); Elapse 61]
           (__init__ (Some 2%Z) (Some 100%Z) 60 0)).

(** A request and a token entry both 50 seconds old under a 60-second
    window: nothing is stale. *)
Definition fresh_machine : Machine :=
  mkMachine (mkRateLimiter (Some 2%Z) (Some 100%Z) 60 [50] [(50, 7%Z)])
            100 [].

(** The value [utilization] returns: it never raises. *)
Definition utilization_value (count : Z) (limit : option Z) : Q :=
  match limit with
  | Some n => if (n =? 0)%Z then 0 else inject_Z count / inject_Z n * 100
  | None => 0
  end.

(** The value [_calculate_wait_time] computes from the trimmed limiter [s]
    (the method without the monad). *)
Definition calculate_wait (s : RateLimiter) (now : Q) (estimated_tokens : Z)
  : outcome Q :=
  let current_rpm := Z.of_nat (length (request_times s)) in
  let current_tpm := sum_tokens (token_usage s) in
  let after_rpm :=
    if and_limit (rpm_limit s) (fun limit => (current_rpm >=? limit)%Z) then
      match request_times s with
      | [] => Raised IndexError
      | oldest :: _ =>
          Returned (py_max 0 (oldest + window_seconds s - now))
      end
    else Returned 0 in
  match after_rpm with
  | Raised e => Raised e
  | Returned wait_time =>
      let wait_time :=
        match tpm_limit s with
        | Some limit =>
            if negb (limit =? 0)%Z
               && (current_tpm + estimated_tokens >? limit)%Z
            then
              match freed_at (current_tpm + estimated_tokens - limit) 0
                             (token_usage s) with
              | Some timestamp =>
                  py_max wait_time (timestamp + window_seconds s - now)
              | None => wait_time
              end
            else wait_time
        | None => wait_time
        end in
      Returned (if Qltb 0 wait_time then wait_time + (1 # 10) else wait_time)
  end.

(** Both limits reached at time 100: two requests under a limit of two,
    90 tokens logged under a limit of 100 (60-second window). *)
Definition limited_machine : Machine :=
  mkMachine
    (mkRateLimiter (Some 2%Z) (Some 100%Z) 60
                   [50; 55] [(52, 70%Z); (58, 20%Z)])
    100 [].

(** Sixty tokens reported at time 0 under a limit of 100, half a second
    ago (one-second window). *)
Definition reported_machine : Machine :=
  snd (run [Call (ReportActualUsage 60); Elapse (1 # 2)]
           (__init__ (Some 2%Z) (Some 100%Z) 1 0)).

(** ** Zero limits

    A limit of [0] read as no limit at all. *)
Definition unset_zero (limit : option Z) : option Z :=
  match limit with
  | Some 0%Z => None
  | _ => limit
  end.

Definition unset_zero_limits (s : RateLimiter) : RateLimiter :=
  mkRateLimiter (unset_zero (rpm_limit s)) (unset_zero (tpm_limit s))
                (window_seconds s) (request_times s) (token_usage s).

Definition unset_zero_machine (m : Machine) : Machine :=
  mkMachine (unset_zero_limits (self m)) (clock m) (effects m).

(** The statistics echo the configured limits; everything else in a reply
    is left as it is. *)
Definition unset_zero_reply (r : outcome reply) : outcome reply :=
  match r with
  | Returned (RStats d) =>
      Returned (RStats (mkStats (stat_current_rpm d)
                                (unset_zero (stat_rpm_limit d))
                                (stat_current_tpm d)
                                (unset_zero (stat_tpm_limit d))
                                (rpm_utilization d) (tpm_utilization d)))
  | _ => r
  end.

(** ** Proof automation *)

(** Runs the monadic plumbing of a method on an explicit machine. *)
Ltac py_step :=
  unfold bind, ret, raise, index0, perform, get_self, set_request_times,
    set_token_usage, time_time;
  cbn [self clock effects fst snd andb].

(** Splits the case analyses that [Q.max_spec] provides. *)
Ltac max_cases :=
  repeat match goal with
         | H : (_ /\ _) \/ (_ /\ _) |- _ => destruct H as [[? ?] | [? ?]]
         end.

(** ** Notions used by the further properties *)

(** An entry stamped [t] is inside the window that starts at [cutoff]. *)
Definition in_window (cutoff t : Q) : bool := negb (Qltb t cutoff).

(** A step a well-behaved caller makes: the clock never runs backwards and
    a reported token count is not negative. *)
Definition step_valid (st : step) : Prop :=
  match st with
  | Elapse d => 0 <= d
  | Call (ReportActualUsage n) => (0 <= n)%Z
  | Call _ => True
  end.


(** What a history of valid steps keeps true of a limiter with token limit
    [limit]: non-negative counts in the log, and a token sum within the
    limit once the log is trimmed at the clock. *)
Definition tpm_settled (limit : Z) (m : Machine) : Prop :=
  reachable m /\
  tpm_limit (self m) = Some limit /\
  0 <= window_seconds (self m) /\
  Forall (fun e => (0 <= snd e)%Z) (token_usage (self m)) /\
  (sum_tokens (token_usage (trimmed (clock m) (self m))) <= limit)%Z.


(** ** Rationals and booleans *)

Lemma Qltb_true x y : Qltb x y = true <-> x < y.
Proof.
  unfold Qltb. rewrite Qlt_alt. destruct (x ?= y); split; congruence.
Qed.

Lemma Qltb_false x y : Qltb x y = false <-> y <= x.
Proof.
  rewrite <- Bool.not_true_iff_false, Qltb_true. split.
  - apply Qnot_lt_le.
  - apply Qle_not_lt.
Qed.

Lemma Qltb_spec x y : reflect (x < y) (Qltb x y).
Proof.
  destruct (Qltb x y) eqn:E; constructor.
  - now apply Qltb_true.
  - apply Qle_not_lt. now apply Qltb_false.
Qed.

Lemma py_max_is_Qmax a b : py_max a b == Qmax a b.
Proof.
  unfold py_max. destruct (Qltb_spec a b) as [H | H].
  - symmetry. apply Q.max_r. now apply Qlt_le_weak.
  - symmetry. apply Q.max_l. now apply Qnot_lt_le.
Qed.

(** ** Deques *)

Section Popleft.
Context {A : Type} (stale : A -> bool).

Lemma popleft_while_split (dq : list A) :
  exists gone,
    dq = gone ++ popleft_while stale dq /\
    Forall (fun x => stale x = true) gone.
Proof.
  induction dq as [| x rest IH]; simpl.
  - exists []. split; [reflexivity | constructor].
  - destruct (stale x) eqn:E.
    + destruct IH as (gone & Hsplit & Hgone).
      exists (x :: gone). split.
      * simpl. now rewrite <- Hsplit.
      * now constructor.
    + exists []. split; [reflexivity | constructor].
Qed.

Lemma popleft_while_head (dq : list A) x :
  hd_error (popleft_while stale dq) = Some x -> stale x = false.
Proof.
  induction dq as [| y rest IH]; simpl; [discriminate |].
  destruct (stale y) eqn:E; [exact IH |].
  simpl. now intros [= <-].
Qed.


Lemma popleft_while_idem (dq : list A) :
  popleft_while stale (popleft_while stale dq) = popleft_while stale dq.
Proof.
  induction dq as [| x rest IH]; [reflexivity |].
  simpl. destruct (stale x) eqn:E; [exact IH |].
  simpl. now rewrite E.
Qed.

(** Once the first [j] entries are stale, the loop removes at least them. *)
Lemma popleft_while_skips (j : nat) (dq : list A) :
  Forall (fun x => stale x = true) (firstn j dq) ->
  exists more, skipn j dq = more ++ popleft_while stale dq.
Proof.
  revert dq. induction j as [| j IH]; intros dq H.
  - simpl. destruct (popleft_while_split dq) as (gone & Hs & _).
    now exists gone.
  - destruct dq as [| x rest]; simpl.
    + now exists [].
    + simpl in H. inversion H as [| ? ? Hx Hrest]; subst.
      rewrite Hx. now apply IH.
Qed.
End Popleft.

(** ** Token sums and the freeing loop *)

Lemma sum_tokens_acc (dq : list (Q * Z)) (acc : Z) :
  fold_left (fun a e => (a + snd e)%Z) dq acc = (acc + sum_tokens dq)%Z.
Proof.
  unfold sum_tokens. revert acc.
  induction dq as [| e rest IH]; intros acc; simpl.
  - lia.
  - rewrite IH, (IH (snd e)). lia.
Qed.

Lemma sum_tokens_cons e dq :
  sum_tokens (e :: dq) = (snd e + sum_tokens dq)%Z.
Proof. unfold sum_tokens at 1. simpl. apply sum_tokens_acc. Qed.

Lemma sum_tokens_app dq1 dq2 :
  sum_tokens (dq1 ++ dq2) = (sum_tokens dq1 + sum_tokens dq2)%Z.
Proof.
  induction dq1 as [| e rest IH]; simpl.
  - reflexivity.
  - rewrite !sum_tokens_cons, IH. lia.
Qed.

Lemma sum_tokens_nonneg dq :
  Forall (fun e => (0 <= snd e)%Z) dq -> (0 <= sum_tokens dq)%Z.
Proof.
  induction 1 as [| e rest He _ IH].
  - reflexivity.
  - rewrite sum_tokens_cons. lia.
Qed.

Lemma sum_tokens_split (k : nat) dq :
  sum_tokens dq = (sum_tokens (firstn k dq) + sum_tokens (skipn k dq))%Z.
Proof. now rewrite <- sum_tokens_app, firstn_skipn. Qed.

Lemma prefix_tokens_cons e dq k :
  prefix_tokens (e :: dq) (S k) = (snd e + prefix_tokens dq k)%Z.
Proof. unfold prefix_tokens. cbn [firstn]. apply sum_tokens_cons. Qed.

Lemma prefix_tokens_head e dq :
  prefix_tokens (e :: dq) 0 = snd e.
Proof.
  unfold prefix_tokens. cbn [firstn]. rewrite sum_tokens_cons.
  unfold sum_tokens. simpl. lia.
Qed.

(** Where the loop breaks is the first prefix that reaches the need. *)
Lemma freed_at_found needed dq : forall acc ts,
  freed_at needed acc dq = Some ts ->
  exists k tokens,
    nth_error dq k = Some (ts, tokens) /\
    (needed <= acc + prefix_tokens dq k)%Z /\
    forall j, (j < k)%nat -> (acc + prefix_tokens dq j < needed)%Z.
Proof.
  induction dq as [| [t n] rest IH]; intros acc ts; simpl; [discriminate |].
  destruct (Z.geb_spec (acc + n) needed) as [Hge | Hlt].
  - intros [= <-]. exists 0%nat, n. rewrite prefix_tokens_head. simpl.
    repeat split; [lia | intros j Hj; lia].
  - intros H. destruct (IH _ _ H) as (k & tokens & Hnth & Hreach & Hfirst).
    exists (S k), tokens. rewrite prefix_tokens_cons. simpl.
    repeat split; [exact Hnth | lia |].
    intros [| j] Hj.
    + rewrite prefix_tokens_head. simpl. lia.
    + rewrite prefix_tokens_cons. simpl.
      specialize (Hfirst j ltac:(lia)). lia.
Qed.

(** The loop runs to the end only if the whole log frees too little. *)
Lemma freed_at_exhausted needed dq : forall acc,
  freed_at needed acc dq = None ->
  dq = [] \/ (acc + sum_tokens dq < needed)%Z.
Proof.
  induction dq as [| [t n] rest IH]; intros acc; simpl; [now left |].
  destruct (Z.geb_spec (acc + n) needed) as [Hge | Hlt]; [discriminate |].
  intros H. right. rewrite sum_tokens_cons. simpl.
  destruct (IH _ H) as [-> | Hrest].
  - unfold sum_tokens. simpl. lia.
  - lia.
Qed.

Lemma freed_at_reaches needed dq acc :
  dq <> [] -> (needed <= acc + sum_tokens dq)%Z ->
  exists ts, freed_at needed acc dq = Some ts.
Proof.
  intros Hne Hle. destruct (freed_at needed acc dq) as [ts |] eqn:E.
  - now exists ts.
  - destruct (freed_at_exhausted _ _ _ E) as [-> | Hlt]; [easy | lia].
Qed.

(** ** What each method does to the machine *)

Lemma trimmed_request_times now s :
  request_times (trimmed now s) =
  popleft_while (fun t => Qltb t (now - window_seconds s)) (request_times s).
Proof. reflexivity. Qed.

Lemma trimmed_token_usage now s :
  token_usage (trimmed now s) =
  popleft_while (fun e => Qltb (fst e) (now - window_seconds s))
                (token_usage s).
Proof. reflexivity. Qed.

Lemma trimmed_config now s :
  rpm_limit (trimmed now s) = rpm_limit s /\
  tpm_limit (trimmed now s) = tpm_limit s /\
  window_seconds (trimmed now s) = window_seconds s.
Proof. repeat split. Qed.

Lemma clean_old_entries_run now m :
  _clean_old_entries now m =
  (Returned tt, mkMachine (trimmed now (self m)) (clock m) (effects m)).
Proof. reflexivity. Qed.

Lemma get_current_usage_run now m :
  _get_current_usage now m =
  (Returned (Z.of_nat (length (request_times (trimmed now (self m)))),
             sum_tokens (token_usage (trimmed now (self m)))),
   mkMachine (trimmed now (self m)) (clock m) (effects m)).
Proof. reflexivity. Qed.

(** ** Trimming *)

Lemma In_split_fresh {A} (P : A -> Prop) (gone kept : list A) x :
  Forall P gone -> ~ P x -> In x (gone ++ kept) -> In x kept.
Proof.
  intros Hgone Hx Hin. apply in_app_or in Hin as [Hin | Hin]; [| exact Hin].
  rewrite Forall_forall in Hgone. now apply Hgone in Hin.
Qed.

(** C4. [_clean_old_entries] removes from each log exactly the run of head
    entries whose timestamp is strictly below [current_time - window_seconds]:
    each log is the removed entries followed by what is left, every removed
    entry is strictly older than the cutoff, and the entry left at the head
    is not.  An entry whose timestamp equals the cutoff is never removed.
    Nothing else in the machine changes and no exception is raised. *)
Theorem clean_old_entries_removes_stale_head : forall now m,
  let cutoff_time := now - window_seconds (self m) in
  let m' := snd (_clean_old_entries now m) in
  fst (_clean_old_entries now m) = Returned tt /\
  (exists gone,
      request_times (self m) = gone ++ request_times (self m') /\
      Forall (fun t => t < cutoff_time) gone) /\
  (exists gone,
      token_usage (self m) = gone ++ token_usage (self m') /\
      Forall (fun e => fst e < cutoff_time) gone) /\
  (forall t, hd_error (request_times (self m')) = Some t ->
             cutoff_time <= t) /\
  (forall e, hd_error (token_usage (self m')) = Some e ->
             cutoff_time <= fst e) /\
  (forall t, In t (request_times (self m)) -> t == cutoff_time ->
             In t (request_times (self m'))) /\
  (forall e, In e (token_usage (self m)) -> fst e == cutoff_time ->
             In e (token_usage (self m'))) /\
  rpm_limit (self m') = rpm_limit (self m) /\
  tpm_limit (self m') = tpm_limit (self m) /\
  window_seconds (self m') = window_seconds (self m) /\
  clock m' = clock m /\
  effects m' = effects m.
Proof.
  intros now m cutoff_time m'. subst m'.
  rewrite clean_old_entries_run. cbn [fst snd self clock effects].
  rewrite trimmed_request_times, trimmed_token_usage. fold cutoff_time.
  destruct (popleft_while_split (fun t => Qltb t cutoff_time)
              (request_times (self m))) as (gone_r & Hsplit_r & Hgone_r).
  destruct (popleft_while_split (fun e => Qltb (fst e) cutoff_time)
              (token_usage (self m))) as (gone_t & Hsplit_t & Hgone_t).
  assert (Hold_r : Forall (fun t => t < cutoff_time) gone_r).
  { eapply Forall_impl; [| exact Hgone_r]. intros t. apply Qltb_true. }
  assert (Hold_t : Forall (fun e => fst e < cutoff_time) gone_t).
  { eapply Forall_impl; [| exact Hgone_t]. intros e. apply Qltb_true. }
  split; [reflexivity |].
  split; [now exists gone_r |].
  split; [now exists gone_t |].
  split.
  { intros t Ht. apply popleft_while_head in Ht. now apply Qltb_false. }
  split.
  { intros e He. apply popleft_while_head in He. now apply Qltb_false. }
  split.
  { intros t Hin Heq. rewrite Hsplit_r in Hin.
    eapply In_split_fresh; [exact Hold_r | | exact Hin].
    cbv beta. rewrite Heq. apply Qlt_irrefl. }
  split.
  { intros e Hin Heq. rewrite Hsplit_t in Hin.
    eapply In_split_fresh; [exact Hold_t | | exact Hin].
    cbv beta. rewrite Heq. apply Qlt_irrefl. }
  repeat split.
Qed.

(** At the cutoff 40 the entries 0 and 10 go and 40 stays. *)
Lemma clean_old_entries_boundary_witness :
  In 40 (request_times (self (snd (_clean_old_entries 100 cutoff_machine)))).
Proof.
  destruct (clean_old_entries_removes_stale_head 100 cutoff_machine)
    as (_ & _ & _ & _ & _ & Hkeep & _).
  apply Hkeep.
  - simpl. auto.
  - reflexivity.
Defined.

Example clean_old_entries_cutoff_machine :
  request_times (self (snd (_clean_old_entries 100 cutoff_machine))) = [40; 5]
  /\ token_usage (self (snd (_clean_old_entries 100 cutoff_machine)))
     = [(40, 9%Z)].
Proof. split; reflexivity. Qed.

Lemma time_sleep_positive w m :
  Qltb 0 w = true ->
  time_sleep w m =
  (Returned tt, mkMachine (self m) (clock m + w) (effects m ++ [Sleep w])).
Proof.
  intros H. unfold time_sleep.
  assert (Qltb w 0 = false) as ->; [| reflexivity].
  apply Qltb_false. apply Qlt_le_weak. now apply Qltb_true.
Qed.

Lemma acquire_run m :
  let now := clock m in
  let s := trimmed now (self m) in
  acquire m =
  match acquire_wait s now with
  | Raised e => (Raised e, mkMachine s now (effects m))
  | Returned w =>
      if Qltb 0 w
      then (Returned tt,
            mkMachine (with_request_times s (request_times s ++ [now + w]))
                      (now + w)
                      (effects m ++ [PrintRpmWait w; Sleep w]))
      else (Returned tt,
            mkMachine (with_request_times s (request_times s ++ [now]))
                      now (effects m))
  end.
Proof.
  intros now s. unfold acquire, bind at 1 2, time_time.
  rewrite clean_old_entries_run. unfold bind at 1, get_self.
  cbn [self clock effects].
  fold now. fold s. unfold acquire_wait.
  destruct (and_limit _ _).
  - destruct (request_times s) as [| oldest rest] eqn:E; py_step;
      [reflexivity |].
    match goal with |- context [Qltb 0 ?w] => destruct (Qltb 0 w) eqn:Hw end.
    + py_step. rewrite Hw, (time_sleep_positive _ _ Hw). py_step.
      rewrite E, <- app_assoc. reflexivity.
    + py_step. rewrite Hw. py_step. rewrite E. reflexivity.
  - py_step. assert (Qltb 0 0 = false) as -> by reflexivity.
    py_step. reflexivity.
Qed.

Lemma report_actual_usage_run n m :
  let now := clock m in
  let s0 := trimmed now (self m) in
  let s := with_token_usage s0 (token_usage s0 ++ [(now, n)]) in
  report_actual_usage n m =
  match report_wait s now with
  | Some (current_tpm, limit, w) =>
      (Returned tt,
       mkMachine s (now + w)
                 (effects m ++ [PrintTpmWait current_tpm limit w; Sleep w]))
  | None => (Returned tt, mkMachine s now (effects m))
  end.
Proof.
  intros now s0 s. unfold report_actual_usage, bind at 1 2, time_time.
  rewrite clean_old_entries_run. py_step.
  fold now. fold s0. fold s. unfold report_wait.
  destruct (tpm_limit s) as [limit |]; [| reflexivity].
  destruct (negb (limit =? 0)%Z); [| reflexivity]. cbn [andb].
  destruct (sum_tokens (token_usage s) >? limit)%Z; [| reflexivity].
  destruct (freed_at _ _ _) as [timestamp |]; [| reflexivity].
  match goal with |- context [Qltb 0 ?w] => destruct (Qltb 0 w) eqn:Hw end;
    [| reflexivity].
  py_step. rewrite (time_sleep_positive _ _ Hw). py_step.
  rewrite <- app_assoc. reflexivity.
Qed.

Lemma calculate_wait_time_machine est m :
  snd (_calculate_wait_time est m) =
  mkMachine (trimmed (clock m) (self m)) (clock m) (effects m).
Proof.
  unfold _calculate_wait_time, bind, time_time.
  rewrite get_current_usage_run. cbn [get_self self].
  set (s := trimmed (clock m) (self m)).
  destruct (and_limit (rpm_limit s) _).
  - destruct (request_times s) as [| oldest rest]; cbn; [reflexivity |].
    destruct (tpm_limit s) as [limit |]; [| reflexivity].
    destruct (negb (limit =? 0)%Z && _); [| reflexivity].
    destruct (freed_at _ _ _); reflexivity.
  - cbn. destruct (tpm_limit s) as [limit |]; [| reflexivity].
    destruct (negb (limit =? 0)%Z && _); [| reflexivity].
    destruct (freed_at _ _ _); reflexivity.
Qed.

Lemma get_current_stats_machine m :
  snd (get_current_stats m) =
  mkMachine (trimmed (clock m) (self m)) (clock m) (effects m).
Proof.
  unfold get_current_stats, bind, time_time.
  rewrite get_current_usage_run. cbn [get_self self].
  set (s := trimmed (clock m) (self m)).
  unfold utilization, truediv, bind.
  destruct (rpm_limit s) as [r |], (tpm_limit s) as [t |]; cbn;
    repeat match goal with
           | |- context [(?x =? 0)%Z] => destruct (x =? 0)%Z; cbn
           end; reflexivity.
Qed.

Lemma bind_ret_machine {A B} (c : Py A) (f : A -> B) m :
  snd (bind c (fun x => ret (f x)) m) = snd (c m).
Proof. unfold bind, ret. now destruct (c m) as [[a | e] m']. Qed.

Lemma invoke_machine c m :
  snd (invoke c m) =
  match c with
  | Acquire => snd (acquire m)
  | ReportActualUsage n => snd (report_actual_usage n m)
  | GetCurrentStats => snd (get_current_stats m)
  | CalculateWaitTime est => snd (_calculate_wait_time est m)
  end.
Proof.
  destruct c; unfold invoke.
  - apply (bind_ret_machine acquire (fun _ => RNone)).
  - apply (bind_ret_machine (report_actual_usage _) (fun _ => RNone)).
  - apply (bind_ret_machine get_current_stats RStats).
  - apply (bind_ret_machine (_calculate_wait_time _) RWait).
Qed.

Lemma report_wait_positive s now cur limit w :
  report_wait s now = Some (cur, limit, w) -> 0 < w.
Proof.
  unfold report_wait.
  destruct (tpm_limit s); [| discriminate].
  destruct (negb _ && _); [| discriminate].
  destruct (freed_at _ _ _); [| discriminate].
  match goal with
  | |- (if Qltb 0 ?x then _ else _) = _ -> _ =>
      destruct (Qltb_spec 0 x); [| discriminate]
  end.
  now intros [= _ _ <-].
Qed.

(** ** Time order of the logs *)

Lemma timeline_nil now : timeline [] now.
Proof. split; constructor. Qed.

Lemma timeline_trim (stale : Q -> bool) ts now :
  timeline ts now -> timeline (popleft_while stale ts) now.
Proof.
  intros [Hsorted Hpast].
  induction ts as [| t rest IH]; simpl; [split; constructor |].
  destruct (stale t); [| now split].
  apply IH.
  - now inversion Hsorted.
  - now inversion Hpast.
Qed.

Lemma timeline_later ts now later :
  now <= later -> timeline ts now -> timeline ts later.
Proof.
  intros Hle [Hsorted Hpast]. split; [exact Hsorted |].
  eapply Forall_impl; [| exact Hpast].
  intros t Ht. cbv beta in *. lra.
Qed.

Lemma timeline_append ts now :
  timeline ts now -> timeline (ts ++ [now]) now.
Proof.
  intros [Hsorted Hpast]. split.
  - induction ts as [| t rest IH]; simpl.
    + repeat constructor.
    + inversion Hsorted; inversion Hpast; subst. constructor.
      * now apply IH.
      * apply Forall_app. split; [assumption | now repeat constructor].
  - apply Forall_app. split; [exact Hpast |].
    repeat constructor. apply Qle_refl.
Qed.

Lemma popleft_while_map_fst (stale : Q -> bool) (dq : list (Q * Z)) :
  map fst (popleft_while (fun e => stale (fst e)) dq) =
  popleft_while stale (map fst dq).
Proof.
  induction dq as [| e rest IH]; simpl; [reflexivity |].
  now destruct (stale (fst e)).
Qed.

Lemma chronological_trimmed now m :
  chronological m ->
  chronological (mkMachine (trimmed now (self m)) (clock m) (effects m)).
Proof.
  intros [Hr Ht]. split; cbn [self clock].
  - rewrite trimmed_request_times. now apply timeline_trim.
  - rewrite trimmed_token_usage.
    rewrite (popleft_while_map_fst
               (fun t => Qltb t (now - window_seconds (self m)))).
    now apply timeline_trim.
Qed.

Lemma chronological_acquire m :
  chronological m -> chronological (snd (acquire m)).
Proof.
  intros H. apply (chronological_trimmed (clock m)) in H.
  destruct H as [Hr Ht]. cbn [self clock] in Hr, Ht.
  rewrite acquire_run.
  destruct (acquire_wait _ _) as [w | e]; [| now split].
  destruct (Qltb_spec 0 w) as [Hw | Hw]; split; cbn [snd self clock
    with_request_times request_times token_usage].
  - apply timeline_append. apply (timeline_later _ (clock m)); [lra | easy].
  - apply (timeline_later _ (clock m)); [lra | easy].
  - now apply timeline_append.
  - exact Ht.
Qed.

Lemma chronological_report n m :
  chronological m -> chronological (snd (report_actual_usage n m)).
Proof.
  intros H. apply (chronological_trimmed (clock m)) in H.
  destruct H as [Hr Ht]. cbn [self clock] in Hr, Ht.
  rewrite report_actual_usage_run.
  set (s := with_token_usage _ _).
  assert (Hlog : timeline (map fst (token_usage s)) (clock m)).
  { subst s. cbn [with_token_usage token_usage]. rewrite map_app.
    now apply timeline_append. }
  destruct (report_wait s (clock m)) as [[[cur limit] w] |] eqn:E;
    [| now split].
  apply report_wait_positive in E.
  split; cbn [snd self clock];
    (apply (timeline_later _ (clock m)); [lra | easy]).
Qed.

Lemma reachable_chronological m : reachable m -> chronological m.
Proof.
  induction 1 as [rpm tpm window t0 | m st _ IH Hok].
  - split; apply timeline_nil.
  - destruct st as [d | c]; cbn [exec].
    + destruct IH as [Hr Ht]. simpl in Hok.
      split; cbn [snd self clock];
        (apply (timeline_later _ (clock m)); [lra | easy]).
    + rewrite invoke_machine. destruct c as [| n | | est].
      * now apply chronological_acquire.
      * now apply chronological_report.
      * rewrite get_current_stats_machine. now apply chronological_trimmed.
      * rewrite calculate_wait_time_machine. now apply chronological_trimmed.
Qed.

Lemma run_reachable sts : forall m,
  Forall step_ok sts -> reachable m -> reachable (snd (run sts m)).
Proof.
  induction sts as [| st rest IH]; intros m Hok Hm; [exact Hm |].
  inversion Hok as [| ? ? Hst Hrest]; subst. cbn [run].
  pose proof (reach_step m st Hm Hst) as Hstep.
  destruct (exec st m) as [r m1]. cbn [snd] in Hstep.
  specialize (IH m1 Hrest Hstep).
  destruct (run rest m1) as [rs m2]. exact IH.
Qed.

Lemma trimmed_updates now s lo hi :
  head_tail_update (fun t => t) lo hi
    (request_times s) (request_times (trimmed now s)) /\
  head_tail_update fst lo hi
    (token_usage s) (token_usage (trimmed now s)).
Proof.
  rewrite trimmed_request_times, trimmed_token_usage. split.
  - destruct (popleft_while_split
                (fun t => Qltb t (now - window_seconds s)) (request_times s))
      as (gone & Hsplit & _).
    exists gone, (popleft_while
                    (fun t => Qltb t (now - window_seconds s))
                    (request_times s)), [].
    rewrite app_nil_r. repeat split; [exact Hsplit | constructor].
  - destruct (popleft_while_split
                (fun e => Qltb (fst e) (now - window_seconds s))
                (token_usage s))
      as (gone & Hsplit & _).
    exists gone, (popleft_while
                    (fun e => Qltb (fst e) (now - window_seconds s))
                    (token_usage s)), [].
    rewrite app_nil_r. repeat split; [exact Hsplit | constructor].
Qed.

Lemma head_tail_update_snoc {A} (stamp : A -> Q) lo hi before after x :
  head_tail_update stamp lo hi before after ->
  lo <= stamp x <= hi ->
  head_tail_update stamp lo hi before (after ++ [x]).
Proof.
  intros (gone & kept & added & Hb & Ha & Hadded) Hx.
  exists gone, kept, (added ++ [x]). repeat split.
  - exact Hb.
  - now rewrite Ha, app_assoc.
  - apply Forall_app. split; [exact Hadded | now repeat constructor].
Qed.

(** Every step only pops at the head and appends, at the tail, entries
    stamped with a clock reading taken during the step. *)
Lemma exec_updates st m :
  step_ok st ->
  let m' := snd (exec st m) in
  clock m <= clock m' /\
  head_tail_update (fun t => t) (clock m) (clock m')
    (request_times (self m)) (request_times (self m')) /\
  head_tail_update fst (clock m) (clock m')
    (token_usage (self m)) (token_usage (self m')).
Proof.
  intros Hok.
  assert (Hsame : forall l : Machine,
             self l = trimmed (clock m) (self m) -> clock l = clock m ->
             clock m <= clock l /\
             head_tail_update (fun t => t) (clock m) (clock l)
               (request_times (self m)) (request_times (self l)) /\
             head_tail_update fst (clock m) (clock l)
               (token_usage (self m)) (token_usage (self l))).
  { intros l -> ->. split; [apply Qle_refl | apply trimmed_updates]. }
  destruct st as [d | c]; cbn [exec].
  - simpl in Hok. cbn [snd self clock]. split; [lra |].
    split; [exists [], (request_times (self m)), []
           | exists [], (token_usage (self m)), []];
      rewrite app_nil_r; repeat split; constructor.
  - rewrite invoke_machine. destruct c as [| n | | est].
    + rewrite acquire_run.
      destruct (acquire_wait _ _) as [w | e]; [| now apply Hsame].
      destruct (Qltb_spec 0 w) as [Hw | Hw];
        cbn [snd self clock with_request_times request_times token_usage].
      * destruct (trimmed_updates (clock m) (self m)
                    (clock m) (clock m + w)) as [Hr Ht].
        split; [lra |]. split; [| assumption].
        apply head_tail_update_snoc; [assumption | lra].
      * destruct (trimmed_updates (clock m) (self m)
                    (clock m) (clock m)) as [Hr Ht].
        split; [lra |]. split; [| assumption].
        apply head_tail_update_snoc; [assumption | lra].
    + rewrite report_actual_usage_run.
      destruct (report_wait _ _) as [[[cur limit] w] |] eqn:Ew;
        cbn [snd self clock with_token_usage request_times token_usage].
      * apply report_wait_positive in Ew.
        destruct (trimmed_updates (clock m) (self m)
                    (clock m) (clock m + w)) as [Hr Ht].
        split; [lra |]. split; [assumption |].
        apply head_tail_update_snoc; [assumption | cbn [fst]; lra].
      * destruct (trimmed_updates (clock m) (self m)
                    (clock m) (clock m)) as [Hr Ht].
        split; [lra |]. split; [assumption |].
        apply head_tail_update_snoc; [assumption | cbn [fst]; lra].
    + rewrite get_current_stats_machine. now apply Hsame.
    + rewrite calculate_wait_time_machine. now apply Hsame.
Qed.

(** C9. Both logs stay in non-decreasing timestamp order.  As long as the
    clock never runs backwards ([step_ok]), every reachable machine has
    [request_times] and the timestamps of [token_usage] sorted, with no entry
    later than the clock; and this is so because every step only removes
    entries at the head of a log and only appends, at its tail, entries
    stamped with a clock reading taken during that step. *)
Theorem logs_stay_chronological : forall m,
  reachable m ->
  StronglySorted Qle (request_times (self m)) /\
  StronglySorted Qle (map fst (token_usage (self m))) /\
  Forall (fun t => t <= clock m) (request_times (self m)) /\
  Forall (fun t => t <= clock m) (map fst (token_usage (self m))) /\
  forall st, step_ok st ->
    let m' := snd (exec st m) in
    clock m <= clock m' /\
    head_tail_update (fun t => t) (clock m) (clock m')
      (request_times (self m)) (request_times (self m')) /\
    head_tail_update fst (clock m) (clock m')
      (token_usage (self m)) (token_usage (self m')).
Proof.
  intros m Hm.
  destruct (reachable_chronological m Hm) as [[Hr1 Hr2] [Ht1 Ht2]].
  repeat split; try assumption; now apply exec_updates.
Qed.

Lemma busy_machine_reachable : reachable busy_machine.
Proof.
  apply run_reachable; [| constructor].
  repeat constructor. discriminate.
Qed.

Lemma logs_stay_chronological_witness :
  StronglySorted Qle (request_times (self busy_machine)) /\
  StronglySorted Qle (map fst (token_usage (self busy_machine))).
Proof.
  destruct (logs_stay_chronological busy_machine busy_machine_reachable)
    as (Hr & Ht & _).
  split; assumption.
Defined.

(** ** The window bound after a trim *)

Lemma popleft_while_sorted_bound cutoff ts :
  StronglySorted Qle ts ->
  Forall (fun t => cutoff <= t)
         (popleft_while (fun t => Qltb t cutoff) ts).
Proof.
  induction 1 as [| t rest Hrest IH Hhead]; simpl; [constructor |].
  destruct (Qltb_spec t cutoff) as [Hlt | Hge]; [exact IH |].
  apply Qnot_lt_le in Hge. constructor; [exact Hge |].
  eapply Forall_impl; [| exact Hhead].
  intros u Hu. cbv beta in *. lra.
Qed.

(** C5, as the code has it.  In every reachable machine, right after
    [_clean_old_entries current_time], every timestamp left in either log
    satisfies [timestamp >= current_time - window_seconds]: the bound is
    not strict, an entry exactly one window old is still in the log. *)
Theorem trimmed_logs_within_window : forall m now,
  reachable m ->
  let m' := snd (_clean_old_entries now m) in
  Forall (fun t => now - window_seconds (self m) <= t)
         (request_times (self m')) /\
  Forall (fun e => now - window_seconds (self m) <= fst e)
         (token_usage (self m')).
Proof.
  intros m now Hm m'. subst m'.
  destruct (reachable_chronological m Hm) as [[Hr _] [Ht _]].
  rewrite clean_old_entries_run. cbn [snd self].
  rewrite trimmed_request_times, trimmed_token_usage. split.
  - now apply popleft_while_sorted_bound.
  - apply Forall_map.
    rewrite (popleft_while_map_fst
               (fun t => Qltb t (now - window_seconds (self m)))).
    now apply popleft_while_sorted_bound.
Qed.

Lemma boundary_machine_reachable : reachable boundary_machine.
Proof.
  apply run_reachable; [| constructor].
  repeat constructor. discriminate.
Qed.

Lemma trimmed_logs_within_window_witness :
  Forall (fun t => 60 - 60 <= t)
         (request_times (self (snd (_clean_old_entries 60 boundary_machine)))).
Proof.
  exact (proj1 (trimmed_logs_within_window boundary_machine 60
                  boundary_machine_reachable)).
Defined.

(** C5, as stated, fails: the request logged at time 0 is still in the log
    after the trim at time 60 under a 60-second window, and it is not
    strictly later than [60 - 60]. *)
Lemma trim_keeps_entry_at_cutoff :
  reachable boundary_machine /\
  clock boundary_machine = 60 /\
  window_seconds (self boundary_machine) = 60 /\
  request_times
    (self (snd (_clean_old_entries (clock boundary_machine)
                                   boundary_machine))) = [0] /\
  ~ Forall (fun t => clock boundary_machine
                     - window_seconds (self boundary_machine) < t)
           (request_times
              (self (snd (_clean_old_entries (clock boundary_machine)
                                             boundary_machine)))).
Proof.
  split; [exact boundary_machine_reachable |].
  split; [reflexivity |]. split; [reflexivity |]. split; [reflexivity |].
  intros H. inversion H as [| t rest Hlt _]; subst. discriminate Hlt.
Qed.

(** ** [acquire] *)

Lemma acquire_wait_spec s now :
  limit_ok (rpm_limit s) ->
  acquire_wait s now = Returned (spec_acquire_wait s now).
Proof.
  unfold acquire_wait, spec_acquire_wait, spec_rpm_candidate, and_limit,
    limit_ok.
  destruct (rpm_limit s) as [limit |]; [| reflexivity]. intros Hpos.
  destruct (Z.eqb_spec limit 0) as [-> | _]; [lia |]. cbn [negb andb].
  destruct (request_times s) as [| oldest rest] eqn:E.
  - cbn [length]. destruct (Z.geb_spec (Z.of_nat 0) limit); [lia |].
    reflexivity.
  - destruct (Z.geb_spec (Z.of_nat (length (oldest :: rest))) limit),
      (Z.leb_spec limit (Z.of_nat (length (oldest :: rest))));
      try lia; reflexivity.
Qed.

Lemma acquire_wait_token_side s1 s2 now :
  rpm_limit s1 = rpm_limit s2 ->
  window_seconds s1 = window_seconds s2 ->
  request_times s1 = request_times s2 ->
  acquire_wait s1 now = acquire_wait s2 now.
Proof. unfold acquire_wait. now intros -> -> ->. Qed.

(** C3. [acquire] trims the logs, looks at the request limit only, sleeps
    the wait it computed (oldest request + window - now + 0.1) exactly when
    that wait is positive, and then appends the clock reading taken after
    the sleep to the request log.  The token log is only trimmed, never
    appended to; neither its content nor [tpm_limit] has any influence on
    the outcome, the sleep, the clock or the request log. *)
Theorem acquire_checks_rpm_only : forall m,
  limit_ok (rpm_limit (self m)) ->
  let now := clock m in
  let s := self (snd (_clean_old_entries now m)) in
  let w := spec_acquire_wait s now in
  let m' := snd (acquire m) in
  fst (acquire m) = Returned tt /\
  (0 < w ->
   effects m' = effects m ++ [PrintRpmWait w; Sleep w] /\
   clock m' = now + w) /\
  (~ 0 < w -> effects m' = effects m /\ clock m' = now) /\
  request_times (self m') = request_times s ++ [clock m'] /\
  token_usage (self m') = token_usage s /\
  rpm_limit (self m') = rpm_limit (self m) /\
  tpm_limit (self m') = tpm_limit (self m) /\
  window_seconds (self m') = window_seconds (self m) /\
  forall tpm dq,
    let m2 := with_token_side tpm dq m in
    fst (acquire m2) = fst (acquire m) /\
    request_times (self (snd (acquire m2))) = request_times (self m') /\
    clock (snd (acquire m2)) = clock m' /\
    effects (snd (acquire m2)) = effects m'.
Proof.
  intros m Hok. cbv zeta.
  rewrite clean_old_entries_run. cbn [snd self].
  set (now := clock m). set (s := trimmed now (self m)).
  set (w := spec_acquire_wait s now).
  assert (Hside : forall tpm dq,
             acquire_wait
               (trimmed (clock (with_token_side tpm dq m))
                        (self (with_token_side tpm dq m)))
               (clock (with_token_side tpm dq m)) =
             Returned w).
  { intros tpm dq. transitivity (acquire_wait s now).
    - now apply acquire_wait_token_side.
    - now apply acquire_wait_spec. }
  assert (Hw : acquire_wait s now = Returned w)
    by now apply acquire_wait_spec.
  rewrite (acquire_run m). cbv zeta. fold now. fold s.
  rewrite Hw.
  destruct (Qltb_spec 0 w) as [Hpos | Hneg];
    cbn [fst snd self clock effects with_request_times request_times
         token_usage rpm_limit tpm_limit window_seconds];
    (split; [reflexivity |]);
    (split; [intros Hpos'; try contradiction; now split |]);
    (split; [intros Hneg'; try contradiction; now split |]);
    repeat (split; [reflexivity |]);
    intros tpm dq; rewrite (acquire_run _); cbv zeta;
    rewrite (Hside tpm dq);
    destruct (Qltb_spec 0 w); try contradiction;
    repeat split.
Qed.

Lemma acquire_checks_rpm_only_witness :
  effects (snd (acquire
                  (snd (run [Call Acquire; Call Acquire]
                            (__init__ (Some 2%Z) (Some 100%Z) 1 0))))) =
  [PrintRpmWait (11 # 10); Sleep (11 # 10)].
Proof.
  destruct (acquire_checks_rpm_only
              (snd (run [Call Acquire; Call Acquire]
                        (__init__ (Some 2%Z) (Some 100%Z) 1 0))))
    as (_ & Hsleep & _).
  - exact (eq_refl : (0 ?= 2)%Z = Lt).
  - destruct Hsleep as [Heff _].
    + reflexivity.
    + exact Heff.
Defined.

(** ** [_calculate_wait_time] and the state *)

Lemma expired_machine_reachable : reachable expired_machine.
Proof.
  apply run_reachable; [| constructor].
  repeat constructor. discriminate.
Qed.

(** C7, as stated, fails: [_calculate_wait_time] goes through
    [_get_current_usage], which trims.  On a machine whose only request and
    only token entry are 61 seconds old (window 60) the call empties both
    logs. *)
Lemma calculate_wait_time_trims_logs :
  reachable expired_machine /\
  request_times (self expired_machine) = [0] /\
  token_usage (self expired_machine) = [(0, 5%Z)] /\
  request_times (self (snd (_calculate_wait_time 1 expired_machine))) = [] /\
  token_usage (self (snd (_calculate_wait_time 1 expired_machine))) = [] /\
  self (snd (_calculate_wait_time 1 expired_machine)) <> self expired_machine.
Proof.
  split; [exact expired_machine_reachable |].
  repeat (split; [vm_compute; reflexivity |]).
  vm_compute. discriminate.
Qed.

(** C7, as the code has it.  The only mutation [_calculate_wait_time]
    performs is the trim: whatever it returns, it leaves the machine exactly
    as [_clean_old_entries] at the current clock reading leaves it.  The
    limits, the window, the clock and the effect trace are unchanged, nothing
    is appended, nothing is slept; and when neither log has a stale head
    entry the limiter is left as it was. *)
Theorem calculate_wait_time_only_trims : forall est m,
  let m' := snd (_calculate_wait_time est m) in
  let cutoff_time := clock m - window_seconds (self m) in
  m' = snd (_clean_old_entries (clock m) m) /\
  rpm_limit (self m') = rpm_limit (self m) /\
  tpm_limit (self m') = tpm_limit (self m) /\
  window_seconds (self m') = window_seconds (self m) /\
  clock m' = clock m /\
  effects m' = effects m /\
  ((forall t, hd_error (request_times (self m)) = Some t ->
              cutoff_time <= t) ->
   (forall e, hd_error (token_usage (self m)) = Some e ->
              cutoff_time <= fst e) ->
   m' = m).
Proof.
  intros est m. cbv zeta.
  rewrite calculate_wait_time_machine, clean_old_entries_run.
  cbn [snd self clock effects].
  repeat (split; [reflexivity |]).
  intros Hr Ht. destruct m as [[rpm tpm window rs ts] now eff].
  cbn [self clock effects request_times token_usage window_seconds] in *.
  unfold trimmed, _clean_old_entries, bind, get_self, set_request_times,
    set_token_usage, with_request_times, with_token_usage.
  cbn [self snd fst clock effects rpm_limit tpm_limit window_seconds
       request_times token_usage].
  assert (popleft_while (fun t => Qltb t (now - window)) rs = rs) as ->.
  { destruct rs as [| t rest]; [reflexivity |]. cbn [popleft_while].
    assert (Qltb t (now - window) = false) as ->; [| reflexivity].
    apply Qltb_false. now apply Hr. }
  assert (popleft_while (fun e => Qltb (fst e) (now - window)) ts = ts) as ->.
  { destruct ts as [| e rest]; [reflexivity |]. cbn [popleft_while].
    assert (Qltb (fst e) (now - window) = false) as ->; [| reflexivity].
    apply Qltb_false. now apply Ht. }
  reflexivity.
Qed.

Lemma calculate_wait_time_only_trims_witness :
  snd (_calculate_wait_time 1 fresh_machine) = fresh_machine.
Proof.
  destruct (calculate_wait_time_only_trims 1 fresh_machine)
    as (_ & _ & _ & _ & _ & _ & Hfresh).
  apply Hfresh.
  - intros t [= <-]. discriminate.
  - intros e [= <-]. discriminate.
Defined.

(** ** The freeing loop always breaks *)

(** C6. Whenever the loop over the token log runs with a need that is at
    most the token sum of the log, some prefix reaches the need: the [break]
    is taken, at the first entry whose prefix holds enough tokens.  (Both
    call sites run the loop under a guard that makes the need positive.)
    At the call site of [report_actual_usage] the need is
    [current_tpm - tpm_limit] over the log that already holds the new entry,
    which is at most [current_tpm]; at the call site of
    [_calculate_wait_time] the same holds under the precondition that the
    need does not exceed the token sum. *)
Theorem freeing_loop_always_breaks :
  (forall dq needed,
      (0 < needed)%Z -> (needed <= sum_tokens dq)%Z ->
      exists ts k tokens,
        freed_at needed 0 dq = Some ts /\
        nth_error dq k = Some (ts, tokens) /\
        first_reaching dq needed k) /\
  (forall m actual_tokens limit,
      tpm_limit (self m) = Some limit -> (0 < limit)%Z ->
      let dq := token_usage (self (snd (_clean_old_entries (clock m) m)))
                ++ [(clock m, actual_tokens)] in
      let current_tpm := sum_tokens dq in
      (current_tpm > limit)%Z ->
      (current_tpm - limit <= current_tpm)%Z /\
      exists ts, freed_at (current_tpm - limit) 0 dq = Some ts) /\
  (forall m estimated_tokens limit,
      tpm_limit (self m) = Some limit ->
      let dq := token_usage (self (snd (_clean_old_entries (clock m) m))) in
      let current_tpm := sum_tokens dq in
      (current_tpm + estimated_tokens > limit)%Z ->
      (current_tpm + estimated_tokens - limit <= current_tpm)%Z ->
      exists ts,
        freed_at (current_tpm + estimated_tokens - limit) 0 dq = Some ts).
Proof.
  assert (Hloop : forall dq needed,
             (0 < needed)%Z -> (needed <= sum_tokens dq)%Z ->
             exists ts, freed_at needed 0 dq = Some ts).
  { intros dq needed Hpos Hle. apply freed_at_reaches; [| lia].
    intros ->. unfold sum_tokens in Hle. simpl in Hle. lia. }
  split; [| split].
  - intros dq needed Hpos Hle.
    destruct (Hloop dq needed Hpos Hle) as [ts Hts].
    destruct (freed_at_found _ _ _ _ Hts) as (k & tokens & Hnth & Hk & Hj).
    exists ts, k, tokens. repeat split; [exact Hts | exact Hnth | lia |].
    intros j Hlt. specialize (Hj j Hlt). lia.
  - intros m n limit _ Hlimit dq current_tpm Hover.
    split; [lia |]. apply Hloop; lia.
  - intros m est limit _ dq current_tpm Hover Hle.
    apply Hloop; lia.
Qed.

Lemma freeing_loop_always_breaks_witness :
  exists ts k tokens,
    freed_at 20 0 [(0, 60%Z); (1, 60%Z)] = Some ts /\
    nth_error [(0, 60%Z); (1, 60%Z)] k = Some (ts, tokens) /\
    first_reaching [(0, 60%Z); (1, 60%Z)] 20 k.
Proof.
  apply (proj1 freeing_loop_always_breaks).
  - reflexivity.
  - vm_compute. discriminate.
Defined.

(** ** Unset limits and the statistics *)

Lemma utilization_run count limit m :
  utilization count limit m = (Returned (utilization_value count limit), m).
Proof.
  unfold utilization, utilization_value, truediv.
  destruct limit as [n |]; [| reflexivity].
  destruct (n =? 0)%Z; reflexivity.
Qed.

Lemma get_current_stats_run m :
  let s := trimmed (clock m) (self m) in
  let current_rpm := Z.of_nat (length (request_times s)) in
  let current_tpm := sum_tokens (token_usage s) in
  get_current_stats m =
  (Returned (mkStats current_rpm (rpm_limit s) current_tpm (tpm_limit s)
                     (utilization_value current_rpm (rpm_limit s))
                     (utilization_value current_tpm (tpm_limit s))),
   mkMachine s (clock m) (effects m)).
Proof.
  cbv zeta. unfold get_current_stats, bind at 1 2, time_time.
  rewrite get_current_usage_run. unfold bind at 1, get_self.
  cbn [self]. unfold bind. rewrite !utilization_run. reflexivity.
Qed.

Lemma acquire_wait_unset s now :
  and_limit (rpm_limit s)
    (fun limit => (Z.of_nat (length (request_times s)) >=? limit)%Z) = false ->
  acquire_wait s now = Returned 0.
Proof. unfold acquire_wait. now intros ->. Qed.

Lemma report_wait_unset s now :
  and_limit (tpm_limit s) (fun _ => true) = false ->
  report_wait s now = None.
Proof.
  unfold report_wait, and_limit. destruct (tpm_limit s) as [limit |];
    [| reflexivity].
  rewrite andb_true_r. now intros ->.
Qed.

(** C8. With [rpm_limit = None], [acquire] returns without sleeping, for
    every machine; with [tpm_limit = None], so does [report_actual_usage].
    [get_current_stats] always returns; the utilization of a dimension is 0
    when its limit is [None], and [count / limit * 100] when the limit is
    set (to a non-zero value), where the counts are those of the trimmed
    logs. *)
Theorem unset_limits_never_block :
  (forall m,
      rpm_limit (self m) = None ->
      fst (acquire m) = Returned tt /\
      effects (snd (acquire m)) = effects m /\
      clock (snd (acquire m)) = clock m) /\
  (forall m actual_tokens,
      tpm_limit (self m) = None ->
      fst (report_actual_usage actual_tokens m) = Returned tt /\
      effects (snd (report_actual_usage actual_tokens m)) = effects m /\
      clock (snd (report_actual_usage actual_tokens m)) = clock m) /\
  (forall m,
      let s := self (snd (_clean_old_entries (clock m) m)) in
      exists stats,
        fst (get_current_stats m) = Returned stats /\
        stat_current_rpm stats = Z.of_nat (length (request_times s)) /\
        stat_current_tpm stats = sum_tokens (token_usage s) /\
        stat_rpm_limit stats = rpm_limit (self m) /\
        stat_tpm_limit stats = tpm_limit (self m) /\
        (rpm_limit (self m) = None -> rpm_utilization stats = 0) /\
        (tpm_limit (self m) = None -> tpm_utilization stats = 0) /\
        (forall limit,
            rpm_limit (self m) = Some limit -> limit <> 0%Z ->
            rpm_utilization stats =
            inject_Z (stat_current_rpm stats) / inject_Z limit * 100) /\
        (forall limit,
            tpm_limit (self m) = Some limit -> limit <> 0%Z ->
            tpm_utilization stats =
            inject_Z (stat_current_tpm stats) / inject_Z limit * 100)).
Proof.
  split; [| split].
  - intros m Hnone. rewrite acquire_run. cbv zeta.
    rewrite acquire_wait_unset.
    + repeat split.
    + destruct (trimmed_config (clock m) (self m)) as (-> & _).
      now rewrite Hnone.
  - intros m n Hnone. rewrite report_actual_usage_run. cbv zeta.
    rewrite report_wait_unset.
    + repeat split.
    + cbn [with_token_usage tpm_limit].
      destruct (trimmed_config (clock m) (self m)) as (_ & -> & _).
      now rewrite Hnone.
  - intros m. cbv zeta. rewrite clean_old_entries_run. cbn [snd self].
    rewrite get_current_stats_run. cbv zeta.
    destruct (trimmed_config (clock m) (self m)) as (Hr & Ht & _).
    eexists. split; [reflexivity |].
    cbn [stat_current_rpm stat_current_tpm stat_rpm_limit stat_tpm_limit
         rpm_utilization tpm_utilization].
    rewrite Hr, Ht. repeat split.
    + now intros ->.
    + now intros ->.
    + intros limit -> Hnz. unfold utilization_value.
      now destruct (Z.eqb_spec limit 0).
    + intros limit -> Hnz. unfold utilization_value.
      now destruct (Z.eqb_spec limit 0).
Qed.

Lemma unset_limits_never_block_witness :
  effects (snd (acquire (__init__ None (Some 100%Z) 60 0))) = [] /\
  effects (snd (report_actual_usage 500 (__init__ (Some 2%Z) None 60 0))) = [].
Proof.
  destruct unset_limits_never_block as (Hacquire & Hreport & _).
  split.
  - apply (Hacquire (__init__ None (Some 100%Z) 60 0)). reflexivity.
  - apply (Hreport (__init__ (Some 2%Z) None 60 0) 500%Z). reflexivity.
Defined.

Example stats_of_busy_limiter :
  fst (get_current_stats
         (mkMachine (mkRateLimiter (Some 4%Z) None 60 [50; 55] [(50, 7%Z)])
                    100 [])) =
  Returned (mkStats 2 (Some 4%Z) 7 None (2 / 4 * 100) 0).
Proof. reflexivity. Qed.

(** ** [_calculate_wait_time] against the specification *)

Lemma calculate_wait_time_run est m :
  let s := trimmed (clock m) (self m) in
  _calculate_wait_time est m =
  (calculate_wait s (clock m) est, mkMachine s (clock m) (effects m)).
Proof.
  cbv zeta. unfold _calculate_wait_time, bind at 1 2, time_time.
  rewrite get_current_usage_run. unfold bind at 1, get_self. cbn [self].
  set (s := trimmed (clock m) (self m)). unfold calculate_wait.
  destruct (and_limit (rpm_limit s) _).
  - destruct (request_times s) as [| oldest rest]; py_step; [reflexivity |].
    destruct (tpm_limit s) as [limit |]; [| reflexivity].
    destruct (negb (limit =? 0)%Z && _); [| reflexivity].
    destruct (freed_at _ _ _); reflexivity.
  - py_step. destruct (tpm_limit s) as [limit |]; [| reflexivity].
    destruct (negb (limit =? 0)%Z && _); [| reflexivity].
    destruct (freed_at _ _ _); reflexivity.
Qed.

Lemma freed_at_none_all needed dq : forall acc,
  freed_at needed acc dq = None ->
  forall k, (k < length dq)%nat -> (acc + prefix_tokens dq k < needed)%Z.
Proof.
  induction dq as [| [t n] rest IH]; intros acc; simpl.
  - intros _ k Hk. lia.
  - destruct (Z.geb_spec (acc + n) needed) as [Hge | Hlt]; [discriminate |].
    intros H [| k] Hk.
    + rewrite prefix_tokens_head. simpl. lia.
    + rewrite prefix_tokens_cons. simpl.
      specialize (IH _ H k ltac:(lia)). lia.
Qed.

Lemma find_seq_first (f : nat -> bool) n : forall a k,
  (k < n)%nat -> f (a + k)%nat = true ->
  (forall j, (j < k)%nat -> f (a + j)%nat = false) ->
  find f (seq a n) = Some (a + k)%nat.
Proof.
  induction n as [| n IH]; intros a k Hk Hf Hfirst; [lia |].
  cbn [seq find]. destruct k as [| k].
  - rewrite Nat.add_0_r in Hf. rewrite Hf. now rewrite Nat.add_0_r.
  - pose proof (Hfirst 0%nat ltac:(lia)) as H0.
    rewrite Nat.add_0_r in H0. rewrite H0.
    replace (a + S k)%nat with (S a + k)%nat by lia.
    apply IH; [lia | |].
    + now replace (S a + k)%nat with (a + S k)%nat by lia.
    + intros j Hj. replace (S a + j)%nat with (a + S j)%nat by lia.
      apply Hfirst. lia.
Qed.

Lemma find_all_false {A} (f : A -> bool) l :
  (forall x, In x l -> f x = false) -> find f l = None.
Proof.
  induction l as [| x rest IH]; intros H; [reflexivity |].
  cbn [find]. rewrite (H x (or_introl eq_refl)).
  apply IH. intros y Hy. apply H. now right.
Qed.

(** The loop of the code finds the entry the specification describes. *)
Lemma freed_at_spec dq needed :
  freed_at needed 0 dq =
  match spec_first_reaching dq needed with
  | Some k => option_map fst (nth_error dq k)
  | None => None
  end.
Proof.
  unfold spec_first_reaching.
  destruct (freed_at needed 0 dq) as [ts |] eqn:E.
  - destruct (freed_at_found _ _ _ _ E) as (k & tokens & Hnth & Hk & Hj).
    assert (Hlen : (k < length dq)%nat).
    { apply nth_error_Some. now rewrite Hnth. }
    rewrite (find_seq_first _ (length dq) 0%nat k Hlen).
    + cbn [Nat.add]. now rewrite Hnth.
    + cbn [Nat.add]. apply Z.leb_le. lia.
    + intros j Hlt. cbn [Nat.add]. apply Z.leb_gt.
      specialize (Hj j Hlt). lia.
  - rewrite find_all_false; [reflexivity |].
    intros k Hin. apply in_seq in Hin. apply Z.leb_gt.
    pose proof (freed_at_none_all _ _ _ E k ltac:(lia)). lia.
Qed.

Lemma candidates_longest (rc tc : option Q) :
  match tc with
  | Some c => py_max match rc with Some c => py_max 0 c | None => 0 end c
  | None => match rc with Some c => py_max 0 c | None => 0 end
  end == spec_longest_wait [rc; tc].
Proof.
  unfold spec_longest_wait. cbn [fold_right].
  destruct rc as [r |], tc as [t |]; rewrite ?py_max_is_Qmax.
  - pose proof (Q.max_spec 0 r). pose proof (Q.max_spec (Qmax 0 r) t).
    pose proof (Q.max_spec t 0). pose proof (Q.max_spec r (Qmax t 0)).
    max_cases; lra.
  - pose proof (Q.max_spec 0 r). pose proof (Q.max_spec r 0).
    max_cases; lra.
  - pose proof (Q.max_spec 0 t). pose proof (Q.max_spec t 0).
    max_cases; lra.
  - reflexivity.
Qed.

Lemma spec_longest_wait_nonneg (cs : list (option Q)) :
  0 <= spec_longest_wait cs.
Proof.
  induction cs as [| [c |] rest IH]; cbn [spec_longest_wait fold_right].
  - apply Qle_refl.
  - fold (spec_longest_wait rest).
    destruct (Q.max_spec c (spec_longest_wait rest)) as [[? H] | [? H]];
      rewrite H; lra.
  - exact IH.
Qed.

Lemma buffer_compat x y :
  x == y ->
  (if Qltb 0 x then x + (1 # 10) else x) ==
  (if Qlt_le_dec 0 y then y + (1 # 10) else y).
Proof.
  intros Hxy.
  destruct (Qltb_spec 0 x), (Qlt_le_dec 0 y); lra.
Qed.

Lemma calculate_wait_candidates s now est :
  limit_ok (rpm_limit s) -> limit_ok (tpm_limit s) ->
  exists longest,
    calculate_wait s now est =
    Returned (if Qltb 0 longest then longest + (1 # 10) else longest) /\
    longest ==
    spec_longest_wait [spec_rpm_candidate s now;
                       spec_tpm_candidate s now est].
Proof.
  intros Hrpm Htpm.
  exists (match spec_tpm_candidate s now est with
          | Some c =>
              py_max match spec_rpm_candidate s now with
                     | Some c => py_max 0 c
                     | None => 0
                     end c
          | None => match spec_rpm_candidate s now with
                    | Some c => py_max 0 c
                    | None => 0
                    end
          end).
  split; [| apply candidates_longest].
  unfold calculate_wait, spec_rpm_candidate, spec_tpm_candidate, and_limit,
    limit_ok in *.
  assert (Hrpm_eq :
            match rpm_limit s with
            | Some n =>
                negb (n =? 0)%Z
                && (Z.of_nat (length (request_times s)) >=? n)%Z
            | None => false
            end = true ->
            exists limit oldest rest,
              rpm_limit s = Some limit /\
              request_times s = oldest :: rest /\
              (limit <=? Z.of_nat (length (request_times s)))%Z = true).
  { destruct (rpm_limit s) as [limit |]; [| discriminate].
    intros H. apply andb_true_iff in H as [_ H].
    destruct (request_times s) as [| oldest rest] eqn:E.
    - cbn [length] in H. apply Z.geb_le in H. lia.
    - exists limit, oldest, rest. repeat split.
      apply Z.leb_le. apply Z.geb_le in H. exact H. }
  assert (Htpm_eq : forall limit, tpm_limit s = Some limit ->
            negb (limit =? 0)%Z
            && (sum_tokens (token_usage s) + est >? limit)%Z
            = (limit <? sum_tokens (token_usage s) + est)%Z).
  { intros limit E. rewrite E in Htpm.
    destruct (Z.eqb_spec limit 0) as [-> | _]; [lia |]. cbn [negb andb].
    rewrite Z.gtb_ltb. reflexivity. }
  destruct (match rpm_limit s with Some _ => _ | None => _ end) eqn:Eguard.
  - destruct (Hrpm_eq eq_refl) as (limit & oldest & rest & -> & E & Hle).
    rewrite E in *. rewrite Hle.
    destruct (tpm_limit s) as [tlimit |] eqn:Et; [| reflexivity].
    rewrite (Htpm_eq tlimit eq_refl).
    destruct (tlimit <? _)%Z; [| reflexivity].
    rewrite freed_at_spec.
    destruct (spec_first_reaching _ _) as [k |]; [| reflexivity].
    destruct (nth_error (token_usage s) k) as [[ts n] |]; reflexivity.
  - assert (Hnone :
              match rpm_limit s with
              | Some limit =>
                  match request_times s with
                  | [] => None
                  | oldest :: _ =>
                      if (limit <=? Z.of_nat (length (request_times s)))%Z
                      then Some (oldest + window_seconds s - now)
                      else None
                  end
              | None => None
              end = None).
    { destruct (rpm_limit s) as [limit |]; [| reflexivity].
      destruct (Z.eqb_spec limit 0) as [-> | _]; [lia |].
      cbn [negb andb] in Eguard.
      destruct (request_times s) as [| oldest rest]; [reflexivity |].
      destruct (Z.leb_spec limit (Z.of_nat (length (oldest :: rest))));
        [| reflexivity].
      rewrite Z.geb_leb in Eguard. apply Z.leb_gt in Eguard. lia. }
    rewrite Hnone.
    destruct (tpm_limit s) as [tlimit |] eqn:Et; [| reflexivity].
    rewrite (Htpm_eq tlimit eq_refl).
    destruct (tlimit <? _)%Z; [| reflexivity].
    rewrite freed_at_spec.
    destruct (spec_first_reaching _ _) as [k |]; [| reflexivity].
    destruct (nth_error (token_usage s) k) as [[ts n] |]; reflexivity.
Qed.

(** C1. For every machine whose limits are absent or positive and every
    estimate, [_calculate_wait_time] returns the wait of the specification
    computed on the trimmed limiter at the current clock reading: the
    maximum, floored at 0, of the RPM candidate (oldest request + window -
    now, present only when the request limit is set and reached) and the TPM
    candidate, plus 0.1 exactly when that maximum is positive. *)
Theorem calculate_wait_time_spec : forall m est,
  limit_ok (rpm_limit (self m)) ->
  limit_ok (tpm_limit (self m)) ->
  let now := clock m in
  let s := self (snd (_clean_old_entries now m)) in
  let longest :=
    spec_longest_wait [spec_rpm_candidate s now;
                       spec_tpm_candidate s now est] in
  exists w,
    fst (_calculate_wait_time est m) = Returned w /\
    w == spec_computeWaitTime s now est /\
    0 <= longest /\
    (0 < longest -> w == longest + (1 # 10)) /\
    (~ 0 < longest -> w == longest).
Proof.
  intros m est Hrpm Htpm. cbv zeta.
  rewrite clean_old_entries_run. cbn [snd self].
  set (s := trimmed (clock m) (self m)).
  rewrite calculate_wait_time_run. cbv zeta. fold s. cbn [fst].
  destruct (calculate_wait_candidates s (clock m) est Hrpm Htpm)
    as (longest & -> & Hlongest).
  pose proof (spec_longest_wait_nonneg
                [spec_rpm_candidate s (clock m);
                 spec_tpm_candidate s (clock m) est]) as Hnonneg.
  eexists. split; [reflexivity |].
  split; [| split; [exact Hnonneg | split]].
  - unfold spec_computeWaitTime. now apply buffer_compat.
  - intros Hpos. destruct (Qltb_spec 0 longest); lra.
  - intros Hneg. destruct (Qltb_spec 0 longest); lra.
Qed.

Lemma calculate_wait_time_spec_witness :
  exists w,
    fst (_calculate_wait_time 30 limited_machine) = Returned w /\
    w == 121 # 10.
Proof.
  destruct (calculate_wait_time_spec limited_machine 30)
    as (w & Hw & Hspec & _).
  - exact (eq_refl : (0 ?= 2)%Z = Lt).
  - exact (eq_refl : (0 ?= 100)%Z = Lt).
  - exists w. split; [exact Hw |].
    apply (Qeq_trans _ _ _ Hspec). vm_compute. reflexivity.
Defined.

Example calculate_wait_time_limited_machine :
  fst (_calculate_wait_time 30 limited_machine) = Returned (121 # 10) /\
  fst (_calculate_wait_time 0 limited_machine) = Returned (101 # 10) /\
  fst (_calculate_wait_time 0 fresh_machine) = Returned 0.
Proof. repeat split. Qed.

(** ** [report_actual_usage] *)

Lemma popleft_while_Forall {A} (P : A -> Prop) (stale : A -> bool) dq :
  Forall P dq -> Forall P (popleft_while stale dq).
Proof.
  induction 1 as [| x rest Hx Hrest IH]; simpl; [constructor |].
  destruct (stale x); [exact IH | now constructor].
Qed.

(** In a log in time order, nothing before entry [k] is later than it. *)
Lemma sorted_prefix_bound (dq : list (Q * Z)) : forall k ts tokens,
  StronglySorted Qle (map fst dq) ->
  nth_error dq k = Some (ts, tokens) ->
  Forall (fun e => fst e <= ts) (firstn (S k) dq).
Proof.
  induction dq as [| e rest IH]; intros k ts tokens Hsorted Hnth.
  - destruct k; discriminate.
  - cbn [map] in Hsorted. inversion Hsorted as [| ? ? Hrest Hhead]; subst.
    destruct k as [| k]; cbn [nth_error] in Hnth.
    + injection Hnth as ->. cbn [firstn]. repeat constructor.
      cbn [fst]. apply Qle_refl.
    + cbn [firstn]. constructor.
      * rewrite Forall_forall in Hhead. apply Hhead.
        apply nth_error_In in Hnth.
        change ts with (fst (ts, tokens)). now apply in_map.
      * now apply (IH k ts tokens).
Qed.

Lemma report_wait_limited s now limit :
  tpm_limit s = Some limit -> (0 < limit)%Z ->
  report_wait s now =
  if (sum_tokens (token_usage s) >? limit)%Z then
    match freed_at (sum_tokens (token_usage s) - limit) 0 (token_usage s) with
    | Some timestamp =>
        if Qltb 0 (timestamp + window_seconds s - now + (1 # 10))
        then Some (sum_tokens (token_usage s), limit,
                   timestamp + window_seconds s - now + (1 # 10))
        else None
    | None => None
    end
  else None.
Proof.
  intros E Hpos. unfold report_wait. rewrite E.
  destruct (Z.eqb_spec limit 0) as [-> | _]; [lia |]. reflexivity.
Qed.

(** Once the first [k + 1] entries are out of the window, what is left of a
    log of non-negative counts holds at most the total less that prefix. *)
Lemma trimmed_sum_bound (stale : Q * Z -> bool) dq k :
  Forall (fun e => (0 <= snd e)%Z) dq ->
  Forall (fun e => stale e = true) (firstn (S k) dq) ->
  (sum_tokens (popleft_while stale dq)
   <= sum_tokens dq - prefix_tokens dq k)%Z.
Proof.
  intros Hnonneg Hstale.
  destruct (popleft_while_skips stale (S k) dq Hstale) as [more Hmore].
  pose proof (sum_tokens_split (S k) dq) as Hsplit.
  rewrite Hmore, sum_tokens_app in Hsplit. unfold prefix_tokens.
  assert (0 <= sum_tokens more)%Z; [| lia].
  apply sum_tokens_nonneg.
  assert (Hskip : Forall (fun e => (0 <= snd e)%Z) (skipn (S k) dq)).
  { rewrite <- (firstn_skipn (S k) dq) in Hnonneg.
    now apply Forall_app in Hnonneg. }
  rewrite Hmore in Hskip. now apply Forall_app in Hskip.
Qed.

(** C2. With [tpm_limit] set, [report_actual_usage] trims, then appends
    [(now, actual_tokens)] to the token log, and sleeps if and only if the
    token sum of that log exceeds the limit.  The sleep lasts
    [timestamp_k + window_seconds - now + 0.1], where entry [k] is the first
    one whose prefix of the log holds at least the overshoot
    [sum - tpm_limit]; at any time from the end of the sleep on, the token
    sum left in the window is back at or under the limit.  (Stated for
    reachable machines, a non-negative window and non-negative token
    counts.) *)
Theorem report_actual_usage_blocks_until_under_limit :
  forall m actual_tokens limit,
    reachable m ->
    tpm_limit (self m) = Some limit -> (0 < limit)%Z ->
    0 <= window_seconds (self m) ->
    (0 <= actual_tokens)%Z ->
    Forall (fun e => (0 <= snd e)%Z) (token_usage (self m)) ->
    let now := clock m in
    let window := window_seconds (self m) in
    let dq := token_usage (self (snd (_clean_old_entries now m)))
              ++ [(now, actual_tokens)] in
    let total := sum_tokens dq in
    let m' := snd (report_actual_usage actual_tokens m) in
    fst (report_actual_usage actual_tokens m) = Returned tt /\
    token_usage (self m') = dq /\
    request_times (self m') =
    request_times (self (snd (_clean_old_entries now m))) /\
    ((total <= limit)%Z -> effects m' = effects m /\ clock m' = now) /\
    ((total > limit)%Z ->
     exists k timestamp tokens,
       nth_error dq k = Some (timestamp, tokens) /\
       first_reaching dq (total - limit) k /\
       0 < timestamp + window - now + (1 # 10) /\
       effects m' =
       effects m ++
       [PrintTpmWait total limit (timestamp + window - now + (1 # 10));
        Sleep (timestamp + window - now + (1 # 10))] /\
       clock m' = now + (timestamp + window - now + (1 # 10)) /\
       forall later,
         clock m' <= later ->
         (sum_tokens
            (token_usage (self (snd (_clean_old_entries later m'))))
          <= limit)%Z).
Proof.
  intros m n limit Hreach Hlimit Hpos Hwindow Hn Hnonneg. cbv zeta.
  rewrite clean_old_entries_run. cbn [snd self].
  set (now := clock m). set (window := window_seconds (self m)) in *.
  set (s0 := trimmed now (self m)).
  set (dq := token_usage s0 ++ [(now, n)]).
  rewrite report_actual_usage_run. cbv zeta. fold now. fold s0. fold dq.
  set (s := with_token_usage s0 dq).
  destruct (trimmed_config now (self m)) as (_ & Htpm & Hwin).
  fold s0 in Htpm, Hwin.
  assert (Hs_tpm : tpm_limit s = Some limit) by (cbn; congruence).
  assert (Hs_win : window_seconds s = window) by exact Hwin.
  rewrite (report_wait_limited s now limit Hs_tpm Hpos).
  change (token_usage s) with dq. rewrite Hs_win.
  (* the log after the append: in time order, inside the window *)
  pose proof (chronological_trimmed now m (reachable_chronological m Hreach))
    as [_ Htime]. cbn [self clock] in Htime. fold s0 in Htime.
  assert (Hsorted : StronglySorted Qle (map fst dq)).
  { unfold dq. rewrite map_app. now apply (timeline_append _ now). }
  assert (Hrecent : Forall (fun e => now - window <= fst e) dq).
  { unfold dq. apply Forall_app. split.
    - unfold s0. rewrite trimmed_token_usage. apply Forall_map.
      rewrite (popleft_while_map_fst (fun t => Qltb t (now - window))).
      apply popleft_while_sorted_bound.
      now destruct (reachable_chronological m Hreach) as [_ [? _]].
    - repeat constructor. cbn [fst]. lra. }
  assert (Hcounts : Forall (fun e => (0 <= snd e)%Z) dq).
  { unfold dq. apply Forall_app. split.
    - unfold s0. rewrite trimmed_token_usage.
      now apply popleft_while_Forall.
    - now repeat constructor. }
  destruct (Z.gtb_spec (sum_tokens dq) limit) as [Hover | Hunder].
  - (* over the limit *)
    destruct (freed_at_reaches (sum_tokens dq - limit) dq 0) as [ts Hts].
    { unfold dq. now destruct (token_usage s0). }
    { lia. }
    rewrite Hts.
    destruct (freed_at_found _ _ _ _ Hts) as (k & tokens & Hnth & Hk & Hj).
    assert (Hts_recent : now - window <= ts).
    { rewrite Forall_forall in Hrecent.
      apply (Hrecent (ts, tokens)). eapply nth_error_In. exact Hnth. }
    assert (Hwait : 0 < ts + window - now + (1 # 10)) by lra.
    assert (Qltb 0 (ts + window - now + (1 # 10)) = true) as ->
        by now apply Qltb_true.
    cbn [fst snd self clock effects].
    split; [reflexivity |]. split; [reflexivity |]. split; [reflexivity |].
    split; [intros; lia |].
    intros _. exists k, ts, tokens.
    split; [exact Hnth |].
    split.
    { split; [lia |]. intros j Hlt. specialize (Hj j Hlt). lia. }
    split; [exact Hwait |]. split; [reflexivity |]. split; [reflexivity |].
    intros later Hlater. rewrite clean_old_entries_run. cbn [snd self].
    rewrite trimmed_token_usage. change (token_usage s) with dq.
    rewrite Hs_win.
    pose proof (trimmed_sum_bound
                  (fun e => Qltb (fst e) (later - window)) dq k Hcounts)
      as Hbound.
    assert (Hstale : Forall (fun e => Qltb (fst e) (later - window) = true)
                            (firstn (S k) dq)).
    { eapply Forall_impl;
        [| exact (sorted_prefix_bound dq k ts tokens Hsorted Hnth)].
      intros e He. cbv beta in He. apply Qltb_true. lra. }
    specialize (Hbound Hstale). lia.
  - (* within the limit *)
    cbn [fst snd self clock effects].
    split; [reflexivity |]. split; [reflexivity |]. split; [reflexivity |].
    split; [intros _; now split |].
    intros Hover. lia.
Qed.

Lemma reported_machine_reachable : reachable reported_machine.
Proof.
  apply run_reachable; [| constructor].
  repeat constructor. discriminate.
Qed.

Lemma report_actual_usage_blocks_witness :
  fst (report_actual_usage 60 reported_machine) = Returned tt /\
  token_usage (self (snd (report_actual_usage 60 reported_machine))) =
  token_usage (self (snd (_clean_old_entries (clock reported_machine)
                                             reported_machine)))
  ++ [(clock reported_machine, 60%Z)].
Proof.
  destruct (report_actual_usage_blocks_until_under_limit
              reported_machine 60 100 reported_machine_reachable)
    as (Hret & Hlog & _).
  - reflexivity.
  - reflexivity.
  - vm_compute. discriminate.
  - vm_compute. discriminate.
  - vm_compute. repeat constructor; discriminate.
  - split; [exact Hret | exact Hlog].
Defined.

Example report_actual_usage_reported_machine :
  effects (snd (report_actual_usage 60 reported_machine)) =
  [PrintTpmWait 120 100 (12 # 20); Sleep (12 # 20)] /\
  effects (snd (report_actual_usage 40 reported_machine)) = [].
Proof. split; vm_compute; reflexivity. Qed.

(** ** A limit of zero is no limit *)

Lemma and_limit_unset_zero limit test :
  and_limit (unset_zero limit) test = and_limit limit test.
Proof. destruct limit as [[| p | p] |]; reflexivity. Qed.

Lemma utilization_value_unset_zero count limit :
  utilization_value count (unset_zero limit) = utilization_value count limit.
Proof. destruct limit as [[| p | p] |]; reflexivity. Qed.

Lemma trimmed_unset_zero now s :
  trimmed now (unset_zero_limits s) = unset_zero_limits (trimmed now s).
Proof. reflexivity. Qed.

Lemma acquire_wait_unset_zero s now :
  acquire_wait (unset_zero_limits s) now = acquire_wait s now.
Proof.
  unfold acquire_wait. cbn [unset_zero_limits rpm_limit request_times
                            window_seconds].
  now rewrite and_limit_unset_zero.
Qed.

Lemma report_wait_unset_zero s now :
  report_wait (unset_zero_limits s) now = report_wait s now.
Proof.
  unfold report_wait. cbn [unset_zero_limits tpm_limit token_usage
                           window_seconds].
  destruct (tpm_limit s) as [[| p | p] |]; reflexivity.
Qed.

Lemma calculate_wait_unset_zero s now est :
  calculate_wait (unset_zero_limits s) now est = calculate_wait s now est.
Proof.
  unfold calculate_wait. cbn [unset_zero_limits rpm_limit tpm_limit
    request_times token_usage window_seconds].
  rewrite and_limit_unset_zero.
  destruct (tpm_limit s) as [[| p | p] |]; reflexivity.
Qed.

Lemma invoke_unset_zero c m :
  invoke c (unset_zero_machine m) =
  (unset_zero_reply (fst (invoke c m)), unset_zero_machine (snd (invoke c m))).
Proof.
  destruct c as [| n | | est]; unfold invoke, bind, ret.
  - rewrite !acquire_run. cbv zeta.
    cbn [unset_zero_machine self clock effects].
    rewrite trimmed_unset_zero, acquire_wait_unset_zero.
    destruct (acquire_wait _ _) as [w | e]; [| reflexivity].
    destruct (Qltb 0 w); reflexivity.
  - rewrite !report_actual_usage_run. cbv zeta.
    cbn [unset_zero_machine self clock effects].
    rewrite trimmed_unset_zero.
    change (with_token_usage (unset_zero_limits ?s) ?dq)
      with (unset_zero_limits (with_token_usage s dq)).
    rewrite report_wait_unset_zero.
    destruct (report_wait _ _) as [[[cur limit] w] |]; reflexivity.
  - rewrite !get_current_stats_run. cbv zeta.
    cbn [unset_zero_machine self clock effects].
    rewrite trimmed_unset_zero.
    cbn [unset_zero_limits rpm_limit tpm_limit request_times token_usage].
    rewrite !utilization_value_unset_zero. reflexivity.
  - rewrite !calculate_wait_time_run. cbv zeta.
    cbn [unset_zero_machine self clock effects].
    rewrite trimmed_unset_zero, calculate_wait_unset_zero.
    destruct (calculate_wait _ _ _) as [w | e]; reflexivity.
Qed.

Lemma run_unset_zero sts : forall m,
  run sts (unset_zero_machine m) =
  (map unset_zero_reply (fst (run sts m)), unset_zero_machine (snd (run sts m))).
Proof.
  induction sts as [| st rest IH]; intros m; [reflexivity |].
  cbn [run].
  assert (Hstep : exec st (unset_zero_machine m) =
                  (unset_zero_reply (fst (exec st m)),
                   unset_zero_machine (snd (exec st m)))).
  { destruct st as [d | c]; [reflexivity | apply invoke_unset_zero]. }
  rewrite Hstep. destruct (exec st m) as [r m1]. cbn [fst snd].
  rewrite IH. destruct (run rest m1) as [rs m2]. reflexivity.
Qed.

(** No step changes the configuration. *)
Lemma exec_config st m :
  rpm_limit (self (snd (exec st m))) = rpm_limit (self m) /\
  tpm_limit (self (snd (exec st m))) = tpm_limit (self m) /\
  window_seconds (self (snd (exec st m))) = window_seconds (self m).
Proof.
  destruct st as [d | c]; cbn [exec]; [repeat split |].
  rewrite invoke_machine. destruct c as [| n | | est].
  - rewrite acquire_run. cbv zeta.
    destruct (acquire_wait _ _) as [w | e]; [| repeat split].
    destruct (Qltb 0 w); repeat split.
  - rewrite report_actual_usage_run. cbv zeta.
    destruct (report_wait _ _) as [[[cur limit] w] |]; repeat split.
  - rewrite get_current_stats_machine. repeat split.
  - rewrite calculate_wait_time_machine. repeat split.
Qed.

(** C10. A limiter built with a limit of [0] behaves as one built with that
    limit left to [None].  Over every history the two produce the same
    replies (the statistics only echo the configured limit), the same
    sleeps and prints, the same clock and the same logs; no step changes
    the limits, so this holds from every state on.  With [rpm_limit = 0]
    [acquire] never sleeps, with [tpm_limit = 0] [report_actual_usage] never
    sleeps, [get_current_stats] always returns (no division by zero) and
    reports a utilization of 0 for a dimension whose limit is [0]. *)
Theorem zero_limit_behaves_as_unset :
  (forall rpm tpm window t0 sts,
      run sts (__init__ (unset_zero rpm) (unset_zero tpm) window t0) =
      (map unset_zero_reply (fst (run sts (__init__ rpm tpm window t0))),
       unset_zero_machine (snd (run sts (__init__ rpm tpm window t0))))) /\
  (forall st m,
      rpm_limit (self (snd (exec st m))) = rpm_limit (self m) /\
      tpm_limit (self (snd (exec st m))) = tpm_limit (self m)) /\
  (forall m,
      rpm_limit (self m) = Some 0%Z ->
      fst (acquire m) = Returned tt /\
      effects (snd (acquire m)) = effects m /\
      clock (snd (acquire m)) = clock m) /\
  (forall m actual_tokens,
      tpm_limit (self m) = Some 0%Z ->
      fst (report_actual_usage actual_tokens m) = Returned tt /\
      effects (snd (report_actual_usage actual_tokens m)) = effects m /\
      clock (snd (report_actual_usage actual_tokens m)) = clock m) /\
  (forall m,
      exists stats,
        fst (get_current_stats m) = Returned stats /\
        (rpm_limit (self m) = Some 0%Z -> rpm_utilization stats = 0) /\
        (tpm_limit (self m) = Some 0%Z -> tpm_utilization stats = 0)).
Proof.
  split; [| split; [| split; [| split]]].
  - intros rpm tpm window t0 sts.
    exact (run_unset_zero sts (__init__ rpm tpm window t0)).
  - intros st m. destruct (exec_config st m) as (Hr & Ht & _). now split.
  - intros m Hzero. rewrite acquire_run. cbv zeta.
    rewrite acquire_wait_unset.
    + repeat split.
    + destruct (trimmed_config (clock m) (self m)) as (-> & _).
      now rewrite Hzero.
  - intros m n Hzero. rewrite report_actual_usage_run. cbv zeta.
    rewrite report_wait_unset.
    + repeat split.
    + cbn [with_token_usage tpm_limit].
      destruct (trimmed_config (clock m) (self m)) as (_ & -> & _).
      now rewrite Hzero.
  - intros m. rewrite get_current_stats_run. cbv zeta.
    destruct (trimmed_config (clock m) (self m)) as (Hr & Ht & _).
    eexists. split; [reflexivity |].
    cbn [rpm_utilization tpm_utilization]. rewrite Hr, Ht.
    split; now intros ->.
Qed.

Lemma zero_limit_behaves_as_unset_witness :
  effects (snd (acquire (__init__ (Some 0%Z) (Some 0%Z) 60 0))) = [] /\
  effects (snd (report_actual_usage 500
                  (__init__ (Some 0%Z) (Some 0%Z) 60 0))) = [].
Proof.
  destruct zero_limit_behaves_as_unset as (_ & _ & Hacquire & Hreport & _).
  split.
  - apply (Hacquire (__init__ (Some 0%Z) (Some 0%Z) 60 0)). reflexivity.
  - apply (Hreport (__init__ (Some 0%Z) (Some 0%Z) 60 0) 500%Z). reflexivity.
Defined.

Example zero_limit_history :
  run [Call Acquire; Call Acquire; Call (ReportActualUsage 500);
       Call GetCurrentStats]
      (__init__ (Some 0%Z) (Some 0%Z) 60 0) =
  ([Returned RNone; Returned RNone; Returned RNone;
    Returned (RStats (mkStats 2 (Some 0%Z) 500 (Some 0%Z) 0 0))],
   mkMachine (mkRateLimiter (Some 0%Z) (Some 0%Z) 60 [0; 0] [(0, 500%Z)])
             0 []).
Proof. reflexivity. Qed.

(** * Further properties of the limiter *)

(** ** Trims compose *)

Lemma popleft_while_absorb {A} (stale1 stale2 : A -> bool) dq :
  (forall x, stale1 x = true -> stale2 x = true) ->
  popleft_while stale2 (popleft_while stale1 dq) = popleft_while stale2 dq.
Proof.
  intros Hsub. induction dq as [| x rest IH]; [reflexivity |].
  cbn [popleft_while]. destruct (stale1 x) eqn:E1.
  - now rewrite (Hsub x E1).
  - reflexivity.
Qed.

Lemma Qltb_later t c1 c2 : c1 <= c2 -> Qltb t c1 = true -> Qltb t c2 = true.
Proof. intros Hle H. apply Qltb_true in H. apply Qltb_true. lra. Qed.

Lemma trimmed_absorb t1 t2 s :
  t1 <= t2 -> trimmed t2 (trimmed t1 s) = trimmed t2 s.
Proof.
  intros Hle. destruct s as [rpm tpm window rs ts].
  unfold trimmed, _clean_old_entries, bind, get_self, set_request_times,
    set_token_usage, with_request_times, with_token_usage.
  cbn [self snd fst clock effects rpm_limit tpm_limit window_seconds
       request_times token_usage].
  f_equal; apply popleft_while_absorb; intros x;
    apply Qltb_later; lra.
Qed.

(** X1. A trim absorbs every earlier trim: cleaning at [t1] and then at a
    later (or the same) time [t2] leaves the machine exactly as cleaning at
    [t2] alone does.  In particular [_clean_old_entries] is idempotent. *)
Theorem clean_old_entries_absorbs_earlier : forall m t1 t2,
  t1 <= t2 ->
  snd (_clean_old_entries t2 (snd (_clean_old_entries t1 m))) =
  snd (_clean_old_entries t2 m).
Proof.
  intros m t1 t2 Hle. rewrite !clean_old_entries_run.
  cbn [snd self clock effects]. now rewrite trimmed_absorb.
Qed.

Lemma clean_old_entries_absorbs_earlier_witness :
  snd (_clean_old_entries 100 (snd (_clean_old_entries 70 cutoff_machine))) =
  snd (_clean_old_entries 100 cutoff_machine).
Proof.
  apply clean_old_entries_absorbs_earlier. vm_compute. discriminate.
Defined.

(** ** On logs in time order the trim is exact *)

Lemma popleft_while_sorted_filter {A} (stamp : A -> Q) cutoff dq :
  StronglySorted Qle (map stamp dq) ->
  popleft_while (fun x => Qltb (stamp x) cutoff) dq =
  filter (fun x => in_window cutoff (stamp x)) dq.
Proof.
  induction dq as [| x rest IH]; intros Hsorted; [reflexivity |].
  cbn [map] in Hsorted. inversion Hsorted as [| ? ? Hrest Hhead]; subst.
  cbn [popleft_while filter]. unfold in_window at 1.
  destruct (Qltb_spec (stamp x) cutoff) as [Hlt | Hge]; cbn [negb].
  - now apply IH.
  - f_equal. symmetry. apply forallb_filter_id. apply forallb_forall.
    intros y Hy. unfold in_window. apply negb_true_iff, Qltb_false.
    rewrite Forall_forall in Hhead.
    specialize (Hhead (stamp y) (in_map stamp _ _ Hy)).
    apply Qnot_lt_le in Hge. lra.
Qed.

(** X2. In a reachable machine [_get_current_usage] is exact: for every
    [current_time] it returns the number of logged requests, and the sum of
    the logged tokens, whose timestamp is at least
    [current_time - window_seconds], and it leaves exactly those entries in
    the logs. *)
Theorem get_current_usage_counts_window : forall m now,
  reachable m ->
  let cutoff_time := now - window_seconds (self m) in
  let requests :=
    filter (in_window cutoff_time) (request_times (self m)) in
  let tokens :=
    filter (fun e => in_window cutoff_time (fst e)) (token_usage (self m)) in
  fst (_get_current_usage now m) =
  Returned (Z.of_nat (length requests), sum_tokens tokens) /\
  request_times (self (snd (_get_current_usage now m))) = requests /\
  token_usage (self (snd (_get_current_usage now m))) = tokens.
Proof.
  intros m now Hm. cbv zeta.
  destruct (reachable_chronological m Hm) as [[Hr _] [Ht _]].
  rewrite get_current_usage_run. cbn [fst snd self].
  rewrite trimmed_request_times, trimmed_token_usage.
  rewrite (popleft_while_sorted_filter fst _ _ Ht).
  rewrite <- (map_id (request_times (self m))) in Hr.
  rewrite (popleft_while_sorted_filter (fun t => t) _ _ Hr).
  repeat split.
Qed.

Lemma get_current_usage_counts_window_witness :
  fst (_get_current_usage 2 busy_machine) =
  Returned
    (Z.of_nat (length (filter (in_window (2 - window_seconds (self busy_machine)))
                              (request_times (self busy_machine)))),
     sum_tokens (filter (fun e => in_window
                                    (2 - window_seconds (self busy_machine))
                                    (fst e))
                        (token_usage (self busy_machine)))).
Proof.
  exact (proj1 (get_current_usage_counts_window busy_machine 2
                  busy_machine_reachable)).
Defined.

(** ** The request limit is enforced *)

Lemma popleft_while_length {A} (stale : A -> bool) dq :
  (length (popleft_while stale dq) <= length dq)%nat.
Proof.
  induction dq as [| x rest IH]; simpl; [lia |].
  destruct (stale x); simpl; lia.
Qed.

Lemma popleft_while_snoc_length {A} (stale : A -> bool) dq x :
  (length (popleft_while stale (dq ++ [x]))
   <= S (length (popleft_while stale dq)))%nat.
Proof.
  induction dq as [| y rest IH]; simpl.
  - destruct (stale x); simpl; lia.
  - destruct (stale y); [exact IH |].
    simpl. rewrite length_app. simpl. lia.
Qed.

Lemma popleft_while_later_length (c1 c2 : Q) (dq : list Q) :
  c1 <= c2 ->
  (length (popleft_while (fun t => Qltb t c2) dq)
   <= length (popleft_while (fun t => Qltb t c1) dq))%nat.
Proof.
  intros Hle.
  rewrite <- (popleft_while_absorb (fun t => Qltb t c1) (fun t => Qltb t c2)).
  - apply popleft_while_length.
  - intros t. now apply Qltb_later.
Qed.

(** The requests that a trim at the clock would leave are within [limit]. *)
Lemma exec_keeps_rpm_within st m limit :
  rpm_limit (self m) = Some limit -> (0 < limit)%Z -> step_ok st ->
  (Z.of_nat (length (request_times (trimmed (clock m) (self m))))
   <= limit)%Z ->
  (Z.of_nat
     (length (request_times
                (trimmed (clock (snd (exec st m)))
                         (self (snd (exec st m))))))
   <= limit)%Z.
Proof.
  intros Hlimit Hpos Hok IH.
  destruct m as [[rpm tpm window rs ts] now eff].
  cbn [self clock rpm_limit] in *. subst rpm.
  assert (Hlater : forall (later : Q) s',
             now <= later ->
             window_seconds s' = window ->
             request_times s' =
             popleft_while (fun t => Qltb t (now - window)) rs ->
             (Z.of_nat (length (request_times (trimmed later s')))
              <= limit)%Z).
  { intros later s' Hle Hw Hrt. rewrite trimmed_request_times, Hw, Hrt.
    rewrite trimmed_request_times in IH.
    cbn [request_times window_seconds] in IH.
    pose proof (popleft_while_length
                  (fun t => Qltb t (later - window))
                  (popleft_while (fun t => Qltb t (now - window)) rs)).
    lia. }
  destruct st as [d | c]; cbn [exec].
  - simpl in Hok. cbn [snd self clock].
    rewrite trimmed_request_times in *.
    cbn [request_times window_seconds] in *.
    pose proof (popleft_while_later_length
                  (now - window) (now + d - window) rs ltac:(lra)).
    lia.
  - rewrite invoke_machine. destruct c as [| n | | est].
    + rewrite acquire_run. cbv zeta. cbn [self clock effects].
      set (s := trimmed now (mkRateLimiter (Some limit) tpm window rs ts))
        in *.
      assert (Hs_rt : request_times s =
                      popleft_while (fun t => Qltb t (now - window)) rs)
        by reflexivity.
      unfold acquire_wait. change (rpm_limit s) with (Some limit).
      change (window_seconds s) with window. unfold and_limit.
      destruct (Z.eqb_spec limit 0) as [-> | _]; [lia |]. cbn [negb andb].
      destruct (Z.geb_spec (Z.of_nat (length (request_times s))) limit)
        as [Hfull | Hroom].
      * destruct (request_times s) as [| oldest rest] eqn:E.
        { cbn [length] in Hfull. lia. }
        assert (Hfresh : now - window <= oldest).
        { apply Qltb_false.
          apply (popleft_while_head (fun t => Qltb t (now - window)) rs).
          now rewrite <- Hs_rt. }
        assert (Qltb 0 (oldest + window - now + (1 # 10)) = true) as ->
            by (apply Qltb_true; lra).
        cbn [snd self clock]. rewrite trimmed_request_times.
        cbn [with_request_times request_times window_seconds].
        change (window_seconds s) with window.
        cbn [app popleft_while].
        assert (Qltb oldest
                     (now + (oldest + window - now + (1 # 10)) - window)
                = true) as -> by (apply Qltb_true; lra).
        pose proof (popleft_while_snoc_length
                      (fun t => Qltb t (now + (oldest + window - now
                                               + (1 # 10)) - window))
                      rest (now + (oldest + window - now + (1 # 10)))).
        pose proof (popleft_while_length
                      (fun t => Qltb t (now + (oldest + window - now
                                               + (1 # 10)) - window))
                      rest).
        cbn [length] in IH. lia.
      * assert (Qltb 0 0 = false) as -> by reflexivity.
        cbn [snd self clock]. rewrite trimmed_request_times.
        cbn [with_request_times request_times window_seconds].
        change (window_seconds s) with window.
        pose proof (popleft_while_snoc_length
                      (fun t => Qltb t (now - window))
                      (request_times s) now).
        pose proof (popleft_while_length
                      (fun t => Qltb t (now - window)) (request_times s)).
        lia.
    + rewrite report_actual_usage_run. cbv zeta. cbn [self clock effects].
      destruct (report_wait _ _) as [[[cur lim] w] |] eqn:Ew;
        cbn [snd self clock].
      * apply report_wait_positive in Ew.
        apply Hlater; [lra | reflexivity | reflexivity].
      * apply Hlater; [lra | reflexivity | reflexivity].
    + rewrite get_current_stats_machine. cbn [self clock].
      apply Hlater; [lra | reflexivity | reflexivity].
    + rewrite calculate_wait_time_machine. cbn [self clock].
      apply Hlater; [lra | reflexivity | reflexivity].
Qed.

Lemma reachable_rpm_within m limit :
  reachable m -> rpm_limit (self m) = Some limit -> (0 < limit)%Z ->
  (Z.of_nat (length (request_times (trimmed (clock m) (self m))))
   <= limit)%Z.
Proof.
  induction 1 as [rpm tpm window t0 | m st Hm IH Hok]; intros Hlimit Hpos.
  - rewrite trimmed_request_times. cbn. lia.
  - destruct (exec_config st m) as (Hr & _). rewrite Hr in Hlimit.
    apply exec_keeps_rpm_within; auto.
Qed.

Lemma utilization_at_most_100 count limit :
  (0 < limit)%Z -> (count <= limit)%Z ->
  utilization_value count (Some limit) <= 100.
Proof.
  intros Hpos Hle. unfold utilization_value.
  destruct (Z.eqb_spec limit 0) as [-> | _]; [lia |].
  assert (Hq : inject_Z count / inject_Z limit <= 1).
  { apply Qle_shift_div_r.
    - change 0 with (inject_Z 0). now rewrite <- Zlt_Qlt.
    - rewrite Qmult_1_l. now rewrite <- Zle_Qle. }
  set (x := inject_Z count / inject_Z limit) in *. lra.
Qed.

(** X3. The request limit is enforced.  In every reachable machine with a
    positive [rpm_limit], the requests logged within the window that ends at
    the clock number at most [rpm_limit]; so [get_current_stats] never
    reports a [current_rpm] above the limit nor an [rpm_utilization] above
    100. *)
Theorem request_limit_enforced : forall m limit,
  reachable m ->
  rpm_limit (self m) = Some limit -> (0 < limit)%Z ->
  (Z.of_nat
     (length (filter (in_window (clock m - window_seconds (self m)))
                     (request_times (self m))))
   <= limit)%Z /\
  exists stats,
    fst (get_current_stats m) = Returned stats /\
    (stat_current_rpm stats <= limit)%Z /\
    rpm_utilization stats <= 100.
Proof.
  intros m limit Hm Hlimit Hpos.
  pose proof (reachable_rpm_within m limit Hm Hlimit Hpos) as Hwithin.
  split.
  - destruct (reachable_chronological m Hm) as [[Hr _] _].
    rewrite trimmed_request_times in Hwithin.
    rewrite <- (map_id (request_times (self m))) in Hr.
    now rewrite (popleft_while_sorted_filter (fun t => t) _ _ Hr)
      in Hwithin.
  - rewrite get_current_stats_run. cbv zeta. eexists.
    split; [reflexivity |].
    cbn [stat_current_rpm rpm_utilization].
    destruct (trimmed_config (clock m) (self m)) as (-> & _).
    rewrite Hlimit. split; [exact Hwithin |].
    now apply utilization_at_most_100.
Qed.

Lemma request_limit_enforced_witness :
  (Z.of_nat
     (length (filter (in_window (clock busy_machine
                                 - window_seconds (self busy_machine)))
                     (request_times (self busy_machine))))
   <= 2)%Z.
Proof.
  apply (request_limit_enforced busy_machine 2 busy_machine_reachable).
  - vm_compute. reflexivity.
  - reflexivity.
Defined.

(** ** The token limit is enforced *)

Lemma step_valid_ok st : step_valid st -> step_ok st.
Proof. destruct st as [d | []]; simpl; auto. Qed.

Lemma sum_popleft_le (stale : Q * Z -> bool) dq :
  Forall (fun e => (0 <= snd e)%Z) dq ->
  (sum_tokens (popleft_while stale dq) <= sum_tokens dq)%Z.
Proof.
  intros Hnonneg.
  destruct (popleft_while_split stale dq) as (gone & Hsplit & _).
  rewrite Hsplit in Hnonneg. apply Forall_app in Hnonneg as [Hgone _].
  apply sum_tokens_nonneg in Hgone.
  rewrite Hsplit at 2. rewrite sum_tokens_app. lia.
Qed.

Lemma sum_popleft_later (c1 c2 : Q) (dq : list (Q * Z)) :
  c1 <= c2 ->
  Forall (fun e => (0 <= snd e)%Z) dq ->
  (sum_tokens (popleft_while (fun e => Qltb (fst e) c2) dq)
   <= sum_tokens (popleft_while (fun e => Qltb (fst e) c1) dq))%Z.
Proof.
  intros Hle Hnonneg.
  rewrite <- (popleft_while_absorb (fun e => Qltb (fst e) c1)
                                   (fun e => Qltb (fst e) c2)).
  - apply sum_popleft_le. now apply popleft_while_Forall.
  - intros e. now apply Qltb_later.
Qed.

(** Once the entry at which the loop broke has left the window, the tokens
    still in it are within the limit. *)
Lemma overshoot_settles dq limit window ts later :
  StronglySorted Qle (map fst dq) ->
  Forall (fun e => (0 <= snd e)%Z) dq ->
  freed_at (sum_tokens dq - limit) 0 dq = Some ts ->
  ts + window + (1 # 10) <= later ->
  (sum_tokens (popleft_while (fun e => Qltb (fst e) (later - window)) dq)
   <= limit)%Z.
Proof.
  intros Hsorted Hnonneg Hts Hlater.
  destruct (freed_at_found _ _ _ _ Hts) as (k & tokens & Hnth & Hk & _).
  pose proof (trimmed_sum_bound
                (fun e => Qltb (fst e) (later - window)) dq k Hnonneg)
    as Hbound.
  assert (Hstale : Forall (fun e => Qltb (fst e) (later - window) = true)
                          (firstn (S k) dq)).
  { eapply Forall_impl;
      [| exact (sorted_prefix_bound dq k ts tokens Hsorted Hnth)].
    intros e He. cbv beta in He. apply Qltb_true. lra. }
  specialize (Hbound Hstale). lia.
Qed.

Lemma exec_keeps_tpm_settled st m limit :
  (0 < limit)%Z -> step_valid st ->
  tpm_settled limit m -> tpm_settled limit (snd (exec st m)).
Proof.
  intros Hpos Hvalid (Hreach & Hlimit & Hwin & Hnonneg & IH).
  split; [apply reach_step; [exact Hreach | now apply step_valid_ok] |].
  destruct (exec_config st m) as (_ & Ht & Hw).
  split; [congruence |]. split; [now rewrite Hw |]. clear Ht Hw.
  pose proof (chronological_trimmed (clock m) m
                (reachable_chronological m Hreach)) as [_ Htime].
  destruct (reachable_chronological m Hreach) as [_ [Hsorted _]].
  destruct m as [[rpm tpm window rs ts] now eff].
  cbn [self clock effects tpm_limit window_seconds token_usage] in *.
  subst tpm.
  rewrite trimmed_token_usage in IH, Htime.
  cbn [token_usage window_seconds] in IH, Htime.
  set (tk := popleft_while (fun e => Qltb (fst e) (now - window)) ts) in *.
  assert (Hnn_tk : Forall (fun e => (0 <= snd e)%Z) tk)
    by now apply popleft_while_Forall.
  assert (Hlater : forall (later : Q) s',
             now <= later -> window_seconds s' = window ->
             token_usage s' = tk ->
             Forall (fun e => (0 <= snd e)%Z) (token_usage s') /\
             (sum_tokens (token_usage (trimmed later s')) <= limit)%Z).
  { intros later s' Hle Hw Htk. rewrite trimmed_token_usage, Hw, Htk.
    split; [exact Hnn_tk |].
    pose proof (sum_popleft_le
                  (fun e => Qltb (fst e) (later - window)) tk Hnn_tk).
    lia. }
  destruct st as [d | c]; cbn [exec].
  - simpl in Hvalid. cbn [snd self clock token_usage].
    split; [exact Hnonneg |]. rewrite trimmed_token_usage.
    cbn [token_usage window_seconds].
    pose proof (sum_popleft_later (now - window) (now + d - window) ts
                  ltac:(lra) Hnonneg).
    fold tk in H. lia.
  - rewrite invoke_machine. destruct c as [| n | | est].
    + rewrite acquire_run. cbv zeta. cbn [self clock effects].
      destruct (acquire_wait _ _) as [w | e]; cbn [snd self clock];
        [| apply Hlater; [lra | reflexivity | reflexivity]].
      destruct (Qltb_spec 0 w); cbn [snd self clock];
        apply Hlater; try reflexivity; lra.
    + simpl in Hvalid.
      rewrite report_actual_usage_run. cbv zeta. cbn [self clock effects].
      set (s0 := trimmed now (mkRateLimiter rpm (Some limit) window rs ts)).
      change (token_usage s0) with tk.
      set (dq := tk ++ [(now, n)]).
      set (s := with_token_usage s0 dq).
      rewrite (report_wait_limited s now limit eq_refl Hpos).
      change (token_usage s) with dq. change (window_seconds s) with window.
      assert (Hnn_dq : Forall (fun e => (0 <= snd e)%Z) dq).
      { apply Forall_app. split; [exact Hnn_tk | now repeat constructor]. }
      assert (Hsorted_dq : StronglySorted Qle (map fst dq)).
      { unfold dq. rewrite map_app. cbn [map fst].
        now apply (timeline_append _ now). }
      assert (Hrecent : Forall (fun e => now - window <= fst e) dq).
      { apply Forall_app. split.
        - apply Forall_map. unfold tk.
          rewrite (popleft_while_map_fst (fun t => Qltb t (now - window))).
          now apply popleft_while_sorted_bound.
        - repeat constructor. cbn [fst]. lra. }
      destruct (Z.gtb_spec (sum_tokens dq) limit) as [Hover | Hunder].
      * destruct (freed_at_reaches (sum_tokens dq - limit) dq 0)
          as [stamp Hstamp].
        { unfold dq. now destruct tk. }
        { lia. }
        rewrite Hstamp.
        assert (Hstamp_recent : now - window <= stamp).
        { destruct (freed_at_found _ _ _ _ Hstamp)
            as (k & tokens & Hnth & _).
          rewrite Forall_forall in Hrecent.
          apply (Hrecent (stamp, tokens)). eapply nth_error_In.
          exact Hnth. }
        assert (Qltb 0 (stamp + window - now + (1 # 10)) = true) as ->
            by (apply Qltb_true; lra).
        cbn [snd self clock]. split; [exact Hnn_dq |].
        rewrite trimmed_token_usage.
        change (token_usage s) with dq.
        change (window_seconds s) with window.
        apply (overshoot_settles dq limit window stamp); auto. lra.
      * cbn [snd self clock]. split; [exact Hnn_dq |].
        rewrite trimmed_token_usage.
        change (token_usage s) with dq.
        change (window_seconds s) with window.
        pose proof (sum_popleft_le
                      (fun e => Qltb (fst e) (now - window)) dq Hnn_dq).
        lia.
    + rewrite get_current_stats_machine. cbn [self clock].
      apply Hlater; [lra | reflexivity | reflexivity].
    + rewrite calculate_wait_time_machine. cbn [self clock].
      apply Hlater; [lra | reflexivity | reflexivity].
Qed.

Lemma run_keeps_tpm_settled limit sts : forall m,
  (0 < limit)%Z -> Forall step_valid sts ->
  tpm_settled limit m -> tpm_settled limit (snd (run sts m)).
Proof.
  induction sts as [| st rest IH]; intros m Hpos Hvalid Hm; [exact Hm |].
  inversion Hvalid as [| ? ? Hst Hrest]; subst. cbn [run].
  pose proof (exec_keeps_tpm_settled st m limit Hpos Hst Hm) as Hstep.
  destruct (exec st m) as [r m1]. cbn [snd] in Hstep.
  specialize (IH m1 Hpos Hrest Hstep).
  destruct (run rest m1) as [rs m2]. exact IH.
Qed.

(** X4. The token limit is enforced between calls.  After any history of
    valid steps (the clock never runs backwards, reported counts are not
    negative) on a limiter built with a positive [tpm_limit] and a
    non-negative window, the tokens logged within the window that ends at
    the clock sum to at most [tpm_limit]; so [get_current_stats] never
    reports a [current_tpm] above the limit nor a [tpm_utilization] above
    100. *)
Theorem token_limit_enforced : forall sts rpm limit window t0,
  Forall step_valid sts ->
  (0 < limit)%Z -> 0 <= window ->
  let m := snd (run sts (__init__ rpm (Some limit) window t0)) in
  (sum_tokens
     (filter (fun e => in_window (clock m - window_seconds (self m)) (fst e))
             (token_usage (self m)))
   <= limit)%Z /\
  exists stats,
    fst (get_current_stats m) = Returned stats /\
    (stat_current_tpm stats <= limit)%Z /\
    tpm_utilization stats <= 100.
Proof.
  intros sts rpm limit window t0 Hvalid Hpos Hwindow m.
  assert (Hinit : tpm_settled limit (__init__ rpm (Some limit) window t0)).
  { split; [constructor |]. split; [reflexivity |].
    split; [exact Hwindow |]. split; [constructor |].
    rewrite trimmed_token_usage. cbn. lia. }
  destruct (run_keeps_tpm_settled limit sts _ Hpos Hvalid Hinit)
    as (Hreach & Hlimit & _ & _ & Hwithin).
  fold m in Hreach, Hlimit, Hwithin.
  split.
  - destruct (reachable_chronological m Hreach) as [_ [Ht _]].
    rewrite trimmed_token_usage in Hwithin.
    now rewrite (popleft_while_sorted_filter fst _ _ Ht) in Hwithin.
  - rewrite get_current_stats_run. cbv zeta. eexists.
    split; [reflexivity |].
    cbn [stat_current_tpm tpm_utilization].
    destruct (trimmed_config (clock m) (self m)) as (_ & -> & _).
    rewrite Hlimit. split; [exact Hwithin |].
    now apply utilization_at_most_100.
Qed.

Lemma token_limit_enforced_witness :
  (sum_tokens
     (filter (fun e => in_window (clock busy_machine
                                  - window_seconds (self busy_machine))
                                 (fst e))
             (token_usage (self busy_machine)))
   <= 100)%Z.
Proof.
  apply (token_limit_enforced
           [Call Acquire; Call Acquire; Call Acquire;
            Call (ReportActualUsage 60); Elapse (1 # 2);
            Call (ReportActualUsage 60)]
           (Some 2%Z) 100 1 0).
  - repeat constructor; discriminate.
  - reflexivity.
  - discriminate.
Defined.

(** ** How long a call can sleep *)




(** ** Exceptions *)

Lemma negative_limit_reached (n : Z) :
  negb (n =? 0)%Z && (Z.of_nat 0 >=? n)%Z = true <-> (n < 0)%Z.
Proof.
  rewrite andb_true_iff, negb_true_iff, Z.eqb_neq, Z.geb_le. simpl. lia.
Qed.

Lemma acquire_wait_raises s now e :
  acquire_wait s now = Raised e <->
  e = IndexError /\
  exists n, rpm_limit s = Some n /\ (n < 0)%Z /\ request_times s = [].
Proof.
  unfold acquire_wait, and_limit.
  destruct (rpm_limit s) as [n |].
  - destruct (request_times s) as [| oldest rest] eqn:E.
    + cbn [length].
      destruct (negb (n =? 0)%Z && (Z.of_nat 0 >=? n)%Z) eqn:G.
      * apply negative_limit_reached in G. split.
        -- intros [= <-]. split; [reflexivity |]. now exists n.
        -- intros [-> _]. reflexivity.
      * split; [discriminate |].
        intros [_ (n' & [= <-] & Hneg & _)].
        apply negative_limit_reached in Hneg. congruence.
    + destruct (negb _ && _); split; try discriminate;
        intros [_ (n' & _ & _ & H)]; discriminate H.
  - split; [discriminate |]. intros [_ (n' & H & _)]. discriminate H.
Qed.

Lemma calculate_wait_raises s now est e :
  calculate_wait s now est = Raised e <-> acquire_wait s now = Raised e.
Proof.
  unfold calculate_wait, acquire_wait.
  destruct (and_limit _ _).
  - destruct (request_times s); [reflexivity |].
    split; discriminate.
  - split; discriminate.
Qed.

(** X6. The only exception is an [IndexError] under a negative request
    limit.  [acquire] and [_calculate_wait_time] raise exactly when
    [rpm_limit] is negative and the trimmed request log is empty, and then
    they raise [IndexError] and leave the machine as the trim left it: no
    request is recorded and nothing is slept.  In every other case they
    return. *)
Theorem index_error_iff_negative_limit : forall m est e,
  let raising :=
    exists n,
      rpm_limit (self m) = Some n /\ (n < 0)%Z /\
      request_times (self (snd (_clean_old_entries (clock m) m))) = [] in
  (fst (acquire m) = Raised e <-> e = IndexError /\ raising) /\
  (fst (_calculate_wait_time est m) = Raised e <->
   e = IndexError /\ raising) /\
  (fst (acquire m) = Raised e ->
   snd (acquire m) = snd (_clean_old_entries (clock m) m)) /\
  (fst (acquire m) = Returned tt \/ fst (acquire m) = Raised IndexError) /\
  ((exists w, fst (_calculate_wait_time est m) = Returned w) \/
   fst (_calculate_wait_time est m) = Raised IndexError).
Proof.
  intros m est e. cbv zeta.
  rewrite clean_old_entries_run. cbn [snd self].
  rewrite acquire_run, calculate_wait_time_run. cbv zeta. cbn [fst].
  set (s := trimmed (clock m) (self m)).
  pose proof (acquire_wait_raises s (clock m)) as Hraise.
  pose proof (calculate_wait_raises s (clock m) est) as Hcalc.
  change (rpm_limit (self m)) with (rpm_limit s).
  split; [| split; [| split; [| split]]].
  - rewrite <- Hraise.
    destruct (acquire_wait s (clock m)) as [w | e'].
    + destruct (Qltb 0 w); cbn [fst]; split; discriminate.
    + cbn [fst]. split; intros [= ->]; reflexivity.
  - rewrite <- Hraise. apply Hcalc.
  - destruct (acquire_wait s (clock m)) as [w | e'].
    + destruct (Qltb 0 w); cbn [fst]; discriminate.
    + reflexivity.
  - destruct (acquire_wait s (clock m)) as [w | e'] eqn:E.
    + left. now destruct (Qltb 0 w).
    + right. apply acquire_wait_raises in E as [-> _]. reflexivity.
  - clear Hraise Hcalc.
    destruct (calculate_wait s (clock m) est) as [w | e'] eqn:E.
    + left. now exists w.
    + right. apply calculate_wait_raises, acquire_wait_raises in E as [-> _].
      reflexivity.
Qed.

Lemma index_error_iff_negative_limit_witness :
  fst (acquire (__init__ (Some (-1)%Z) None 60 0)) = Raised IndexError.
Proof.
  apply (proj1 (index_error_iff_negative_limit
                  (__init__ (Some (-1)%Z) None 60 0) 0 IndexError)).
  split; [reflexivity |].
  exists (-1)%Z. repeat split.
Defined.

Lemma invoke_reply_acquire m :
  fst (invoke Acquire m) =
  match fst (acquire m) with
  | Returned _ => Returned RNone
  | Raised e => Raised e
  end.
Proof.
  unfold invoke, bind, ret. now destruct (acquire m) as [[[] | e] m'].
Qed.

Lemma exec_negative_limit st m n :
  rpm_limit (self m) = Some n -> (n < 0)%Z ->
  request_times (self m) = [] ->
  request_times (self (snd (exec st m))) = [] /\
  (st = Call Acquire -> fst (exec st m) = Raised IndexError).
Proof.
  intros Hlimit Hneg Hempty.
  assert (Htrim : forall t, request_times (trimmed t (self m)) = []).
  { intros t. rewrite trimmed_request_times, Hempty. reflexivity. }
  assert (Hwait : acquire_wait (trimmed (clock m) (self m)) (clock m)
                  = Raised IndexError).
  { apply acquire_wait_raises. split; [reflexivity |].
    exists n. repeat split; auto. }
  destruct st as [d | c]; cbn [exec].
  - split; [exact Hempty | discriminate].
  - split.
    + rewrite invoke_machine. destruct c as [| k | | est].
      * rewrite acquire_run. cbv zeta. rewrite Hwait. apply Htrim.
      * rewrite report_actual_usage_run. cbv zeta.
        destruct (report_wait _ _) as [[[cur lim] w] |]; apply Htrim.
      * rewrite get_current_stats_machine. apply Htrim.
      * rewrite calculate_wait_time_machine. apply Htrim.
    + intros [= ->]. rewrite invoke_reply_acquire, acquire_run. cbv zeta.
      now rewrite Hwait.
Qed.

Lemma run_negative_limit n sts : forall m,
  rpm_limit (self m) = Some n -> (n < 0)%Z ->
  request_times (self m) = [] ->
  request_times (self (snd (run sts m))) = [] /\
  forall i, nth_error sts i = Some (Call Acquire) ->
            nth_error (fst (run sts m)) i = Some (Raised IndexError).
Proof.
  induction sts as [| st rest IH]; intros m Hlimit Hneg Hempty.
  - split; [exact Hempty |]. intros [| i]; discriminate.
  - cbn [run].
    destruct (exec_negative_limit st m n Hlimit Hneg Hempty)
      as [Hstep Hreply].
    destruct (exec_config st m) as (Hr & _).
    destruct (exec st m) as [r m1]. cbn [fst snd] in *.
    rewrite <- Hr in Hlimit.
    destruct (IH m1 Hlimit Hneg Hstep) as [Hlog Hreplies].
    destruct (run rest m1) as [rs m2]. cbn [fst snd] in *.
    split; [exact Hlog |].
    intros [| i]; cbn [nth_error].
    + intros [= ->]. now rewrite Hreply.
    + apply Hreplies.
Qed.

(** X7. A limiter built with a negative request limit admits nothing: in
    every history each call of [acquire] raises [IndexError], and the
    request log stays empty. *)
Theorem negative_rpm_limit_admits_nothing : forall sts n tpm window t0,
  (n < 0)%Z ->
  request_times
    (self (snd (run sts (__init__ (Some n) tpm window t0)))) = [] /\
  forall i, nth_error sts i = Some (Call Acquire) ->
            nth_error (fst (run sts (__init__ (Some n) tpm window t0))) i
            = Some (Raised IndexError).
Proof.
  intros sts n tpm window t0 Hneg.
  now apply (run_negative_limit n).
Qed.

Lemma negative_rpm_limit_admits_nothing_witness :
  request_times
    (self (snd (run [Call Acquire; Elapse 5; Call Acquire]
                    (__init__ (Some (-3)%Z) None 60 0)))) = [].
Proof.
  apply (negative_rpm_limit_admits_nothing
           [Call Acquire; Elapse 5; Call Acquire] (-3) None 60 0).
  reflexivity.
Defined.

(** X8. [report_actual_usage] never raises and always logs the usage: on
    every machine, whatever the limits, the window and the sign of the
    count, it returns, the token log is the trimmed log followed by
    [(now, actual_tokens)], the request log is only trimmed, the
    configuration is unchanged and the clock has not gone back. *)
Theorem report_actual_usage_always_logs : forall m actual_tokens,
  let trimmed_machine := snd (_clean_old_entries (clock m) m) in
  let m' := snd (report_actual_usage actual_tokens m) in
  fst (report_actual_usage actual_tokens m) = Returned tt /\
  token_usage (self m') =
  token_usage (self trimmed_machine) ++ [(clock m, actual_tokens)] /\
  request_times (self m') = request_times (self trimmed_machine) /\
  rpm_limit (self m') = rpm_limit (self m) /\
  tpm_limit (self m') = tpm_limit (self m) /\
  window_seconds (self m') = window_seconds (self m) /\
  clock m <= clock m'.
Proof.
  intros m n. cbv zeta. rewrite clean_old_entries_run. cbn [snd self].
  rewrite report_actual_usage_run. cbv zeta.
  destruct (report_wait _ _) as [[[cur lim] w] |] eqn:Ew;
    cbn [fst snd self clock];
    repeat (split; [reflexivity |]).
  - apply report_wait_positive in Ew. lra.
  - apply Qle_refl.
Qed.

(** X9. [get_current_stats] is idempotent: called again at once, on the
    machine the first call left, it gives the same reply and changes
    nothing. *)
Theorem get_current_stats_idempotent : forall m,
  get_current_stats (snd (get_current_stats m)) =
  (fst (get_current_stats m), snd (get_current_stats m)).
Proof.
  intros m. rewrite !get_current_stats_run. cbv zeta.
  cbn [fst snd self clock effects].
  rewrite (trimmed_absorb (clock m) (clock m)) by apply Qle_refl.
  reflexivity.
Qed.

(** ** A burst of requests *)






(** ** The range of the computed wait *)




(** ** Usage decays with time *)

(** X12. With no call in between, the usage [get_current_stats] reports can
    only go down as time goes by: after [d >= 0] more seconds the request
    count is not larger, and neither is the token sum when the logged counts
    are not negative. *)
Theorem usage_decays_with_time : forall m d,
  0 <= d ->
  exists before after,
    fst (get_current_stats m) = Returned before /\
    fst (get_current_stats (snd (exec (Elapse d) m))) = Returned after /\
    (stat_current_rpm after <= stat_current_rpm before)%Z /\
    (Forall (fun e => (0 <= snd e)%Z) (token_usage (self m)) ->
     (stat_current_tpm after <= stat_current_tpm before)%Z).
Proof.
  intros m d Hd. rewrite !get_current_stats_run. cbv zeta.
  cbn [exec snd fst self clock effects].
  do 2 eexists. split; [reflexivity |]. split; [reflexivity |].
  cbn [stat_current_rpm stat_current_tpm].
  rewrite !trimmed_request_times, !trimmed_token_usage. split.
  - pose proof (popleft_while_later_length
                  (clock m - window_seconds (self m))
                  (clock m + d - window_seconds (self m))
                  (request_times (self m)) ltac:(lra)).
    lia.
  - intros Hnonneg.
    apply sum_popleft_later; [lra | exact Hnonneg].
Qed.

Lemma usage_decays_with_time_witness :
  exists before after,
    fst (get_current_stats cutoff_machine) = Returned before /\
    fst (get_current_stats (snd (exec (Elapse 30) cutoff_machine)))
    = Returned after /\
    (stat_current_rpm after <= stat_current_rpm before)%Z.
Proof.
  destruct (usage_decays_with_time cutoff_machine 30)
    as (before & after & Hb & Ha & Hrpm & _).
  - discriminate.
  - exists before, after. repeat split; assumption.
Defined.
